(** * notify_kairi25: SMA25 deviation alerts

    A shallow embedding of [notify_kairi25.py] and the properties of its
    signal pipeline: [read_tickers], [fetch_prices],
    [compute_sma25_signals], [format_alerts] and the entry point [main].

    Number model.  A pandas float64 cell that holds a price is an
    [option Q]: [Some q] is the finite value [q] and [None] is NaN.  The
    computed columns are embedded twice.  The definitions of the top level
    compute in exact rational arithmetic (no rounding, the constant [0.8]
    being the rational [8/10]; a value computed by a division may be
    infinite and lives in [float64]): they give the rows of the result
    frame, the rows on which the average is defined, and the values up to
    rounding.  Module [F64] computes the same columns in binary64, every
    operation rounded to nearest, ties to even, with the rolling mean as a
    parameter: it gives the threshold test as the source evaluates it. *)

From Stdlib Require Import QArith Ascii String.
From Stdlib Require Import Lqa Qabs.
From stdpp Require Import base numbers list gmap sorting lexico.

Local Open Scope Z_scope.
Local Open Scope nat_scope.

(** ** Python [str]: a sequence of Unicode code points *)

Abbreviation str := (list N).

(** An ASCII literal as a [str]. *)
Definition lit (s : string) : str := N_of_ascii <$> list_ascii_of_string s.

(** [a < b] on [str]: Python compares code point by code point, a proper
    prefix being smaller. *)
Fixpoint str_ltb (a b : str) : bool :=
  match a, b with
  | [], [] => false
  | [], _ :: _ => true
  | _ :: _, [] => false
  | x :: a', y :: b' =>
      if (x <? y)%N then true
      else if (x =? y)%N then str_ltb a' b' else false
  end.

Definition str_lt (a b : str) : Prop := str_ltb a b = true.
Definition str_le (a b : str) : Prop := str_ltb b a = false.

Global Instance str_lt_dec a b : Decision (str_lt a b).
Proof. unfold str_lt. apply _. Defined.
Global Instance str_le_dec a b : Decision (str_le a b).
Proof. unfold str_le. apply _. Defined.

(** [str.isspace] for one character (CPython's whitespace table). *)
Definition isspace (c : N) : bool :=
  ((9 <=? c) && (c <=? 13) || (28 <=? c) && (c <=? 32)
   || (c =? 133) || (c =? 160) || (c =? 5760)
   || (8192 <=? c) && (c <=? 8202)
   || (c =? 8232) || (c =? 8233) || (c =? 8239) || (c =? 8287)
   || (c =? 12288))%N.

Fixpoint lstrip (s : str) : str :=
  match s with
  | c :: s' => if isspace c then lstrip s' else s
  | [] => []
  end.

Definition rstrip (s : str) : str := reverse (lstrip (reverse s)).

(** [s.strip()] *)
Definition strip (s : str) : str := rstrip (lstrip s).

(** [s.startswith("#")] *)
Definition startswith_hash (s : str) : bool :=
  match s with
  | c :: _ => (c =? 35)%N
  | [] => false
  end.

(** [bool(s)] for a [str]: the empty string is falsy. *)
Definition truthy (s : str) : bool :=
  match s with [] => false | _ :: _ => true end.

(** ** float64 values *)

Inductive float64 := Fin (q : Q) | PInf | NInf | NaN.

Definition Qlt_bool (x y : Q) : bool := negb (Qle_bool y x).

Definition Qsgn (q : Q) : comparison := (Qnum q ?= 0)%Z.

Definition inf_of_sign (c : comparison) : float64 :=
  match c with Gt => PInf | Lt => NInf | Eq => NaN end.

Definition sign_mul (a b : comparison) : comparison :=
  match a, b with
  | Eq, _ | _, Eq => Eq
  | Gt, Gt | Lt, Lt => Gt
  | _, _ => Lt
  end.

(** The model has one zero, which divides like [+0.0]. *)
Definition fdiv (x y : float64) : float64 :=
  match x, y with
  | NaN, _ | _, NaN => NaN
  | Fin a, Fin b =>
      if Qeq_bool b 0 then inf_of_sign (Qsgn a) else Fin (a / b)
  | Fin _, _ => Fin 0
  | PInf, Fin b => if Qlt_bool b 0 then NInf else PInf
  | NInf, Fin b => if Qlt_bool b 0 then PInf else NInf
  | _, _ => NaN
  end.

Definition fsub (x y : float64) : float64 :=
  match x, y with
  | NaN, _ | _, NaN => NaN
  | Fin a, Fin b => Fin (a - b)
  | Fin _, PInf => NInf
  | Fin _, NInf => PInf
  | PInf, PInf | NInf, NInf => NaN
  | PInf, _ => PInf
  | NInf, _ => NInf
  end.

Definition fmul (x y : float64) : float64 :=
  match x, y with
  | NaN, _ | _, NaN => NaN
  | Fin a, Fin b => Fin (a * b)
  | Fin a, PInf | PInf, Fin a => inf_of_sign (Qsgn a)
  | Fin a, NInf | NInf, Fin a => inf_of_sign (sign_mul Lt (Qsgn a))
  | PInf, PInf | NInf, NInf => PInf
  | _, _ => NInf
  end.

(** [x < y]; every comparison with NaN is [False]. *)
Definition flt (x y : float64) : bool :=
  match x, y with
  | NaN, _ | _, NaN => false
  | Fin a, Fin b => Qlt_bool a b
  | Fin _, PInf | NInf, Fin _ | NInf, PInf => true
  | _, _ => false
  end.

(** [pd.notnull] *)
Definition notnull (x : float64) : bool :=
  match x with NaN => false | _ => true end.

(** A price cell as a float64. *)
Definition of_cell (c : option Q) : float64 :=
  match c with Some q => Fin q | None => NaN end.

(** ** Exceptions *)

Inductive exn := KeyError | ValueError.

(** [Unmodelled] marks the one path this development does not follow
    further: see [select_close]. *)
Inductive outcome (A : Type) :=
  | Ok (a : A)
  | Raise (e : exn)
  | Unmodelled.
Arguments Ok {A} a.
Arguments Raise {A} e.
Arguments Unmodelled {A}.

Global Instance outcome_bind : MBind outcome := λ A B f m,
  match m with
  | Ok a => f a
  | Raise e => Raise e
  | Unmodelled => Unmodelled
  end.

(** [pd.concat(frames, ignore_index=True)]: no frames at all is a
    [ValueError]. *)
Definition pd_concat {A} (frames : list (list A)) : outcome (list A) :=
  match frames with
  | [] => Raise ValueError
  | _ :: _ => Ok (mjoin frames)
  end.

(** ** read_tickers *)

Definition keep_line (line : str) : bool :=
  truthy (strip line) && negb (startswith_hash (strip line)).

(** [lines] are the lines the open file yields. *)
Definition read_tickers (lines : list str) : list str :=
  strip <$> filter (λ line, keep_line line = true) lines.

(** ** fetch_prices *)

Abbreviation column := (list (option Q)).

(** The column axis of the downloaded frame: one level (field names) or
    two levels (ticker, then field). *)
Inductive columns :=
  | OneLevel (fields : gmap str column)
  | TwoLevel (groups : gmap str (gmap str column)).

Record DataFrame := { index : list Z; cols : columns }.

(** A row of the normalized frame: columns [Date], [close], [ticker]. *)
Record PriceRow := { Date : Z; close : option Q; ticker : str }.

Global Instance Q_eq_dec : EqDecision Q.
Proof. solve_decision. Defined.
Global Instance PriceRow_eq_dec : EqDecision PriceRow.
Proof. solve_decision. Defined.

(** What [data[t]] evaluates to. *)
Inductive selection :=
  | SelSeries (c : column)
  | SelFrame (c : columns).

(** [data[t]]; [None] is [KeyError]. *)
Definition getitem (data : columns) (t : str) : option selection :=
  match data with
  | OneLevel m => SelSeries <$> m !! t
  | TwoLevel m => (λ sub, SelFrame (OneLevel sub)) <$> m !! t
  end.

(** [try: df = data[t].copy()  except Exception: df = data.copy()] *)
Definition select_ticker (data : columns) (t : str) : selection :=
  default (SelFrame data) (getitem data t).

Definition Close : str := lit "Close".

(** [df[['Close']].rename(columns={'Close': 'close'})].  A Series has no
    label [Close] in its date index; a frame needs [Close] on its first
    column level.  When the frame has two levels and a group is itself
    called [Close], the selection keeps both levels and the rows no longer
    have the three columns of [PriceRow]: that path is [Unmodelled]. *)
Definition select_close (df : selection) : outcome column :=
  match df with
  | SelSeries _ => Raise KeyError
  | SelFrame (OneLevel m) =>
      match m !! Close with
      | Some c => Ok c
      | None => Raise KeyError
      end
  | SelFrame (TwoLevel m) =>
      match m !! Close with
      | Some _ => Unmodelled
      | None => Raise KeyError
      end
  end.

(** [df['ticker'] = t; df.reset_index()] *)
Definition frame_rows (idx : list Z) (c : column) (t : str) : list PriceRow :=
  zip_with (λ d x, {| Date := d; close := x; ticker := t |}) idx c.

(** The loop [for t in tickers] building [frames]. *)
Fixpoint fetch_frames (data : DataFrame) (tickers : list str)
  : outcome (list (list PriceRow)) :=
  match tickers with
  | [] => Ok []
  | t :: ts =>
      c ← select_close (select_ticker (cols data) t);
      rest ← fetch_frames data ts;
      Ok (frame_rows (index data) c t :: rest)
  end.

(** [data] is what [yf.download] returned for [tickers]. *)
Definition fetch_prices (data : DataFrame) (tickers : list str)
  : outcome (list PriceRow) :=
  frames ← fetch_frames data tickers;
  pd_concat frames.

(** ** compute_sma25_signals *)

(** A row of the result frame: the three input columns and the three
    computed ones. *)
Record SignalRow := {
  row : PriceRow;
  sma25 : option Q;
  kairi : float64;
  signal : bool
}.

Global Instance float64_eq_dec : EqDecision float64.
Proof. solve_decision. Defined.
Global Instance SignalRow_eq_dec : EqDecision SignalRow.
Proof. solve_decision. Defined.

Definition date_le (a b : PriceRow) : Prop := (Date a ≤ Date b)%Z.

Global Instance date_le_dec a b : Decision (date_le a b).
Proof. unfold date_le. apply _. Defined.

(** [g.sort_values('Date')].  Rows of equal date come out in the order this
    merge sort leaves them in; pandas does not fix that order either, and no
    statement below depends on it. *)
Definition sort_values_Date (g : list PriceRow) : list PriceRow :=
  merge_sort date_le g.

(** The observations of a window are its cells other than NaN. *)
Definition observations (w : column) : list Q := omap id w.

Definition Qsum (l : list Q) : Q := foldr Qplus 0%Q l.

(** The mean of the observations, NaN when there are fewer than
    [min_periods] of them. *)
Definition window_mean (min_periods : nat) (w : column) : option Q :=
  let obs := observations w in
  if decide (min_periods ≤ length obs ∧ 0 < length obs)
  then Some (Qsum obs / inject_Z (Z.of_nat (length obs)))%Q
  else None.

(** The window of [n] rows that ends at row [i], shorter at the start of
    the column. *)
Definition window (n : nat) (xs : column) (i : nat) : column :=
  drop (S i - n) (take (S i) xs).

(** [xs.rolling(n, min_periods=min_periods).mean()] *)
Definition rolling_mean (n min_periods : nat) (xs : column) : column :=
  imap (λ i _, window_mean min_periods (window n xs i)) xs.

(** The columns [sma25], [kairi] and [signal] of one row. *)
Definition add_columns (r : PriceRow) (m : option Q) : SignalRow :=
  {| row := r;
     sma25 := m;
     kairi := fmul (fsub (fdiv (of_cell (close r)) (of_cell m)) (Fin 1))
                   (Fin 100);
     signal := flt (of_cell (close r)) (fmul (of_cell m) (Fin (8 # 10))) |}.

(** The body of the loop over the groups. *)
Definition compute_group (g : list PriceRow) : list SignalRow :=
  let g := sort_values_Date g in
  zip_with add_columns g (rolling_mean 25 25 (close <$> g)).

(** The group keys of [groupby]: the distinct values, ascending. *)
Definition unique_sorted (ks : list str) : list str :=
  merge_sort str_le (remove_dups ks).

(** [df.groupby('ticker')]: each key with its rows in frame order. *)
Definition groupby_ticker (df : list PriceRow) : list (str * list PriceRow) :=
  (λ t, (t, filter (λ r, ticker r = t) df)) <$> unique_sorted (ticker <$> df).

Definition compute_sma25_signals (df : list PriceRow)
  : outcome (list SignalRow) :=
  pd_concat ((λ tg, compute_group tg.2) <$> groupby_ticker df).

(** ** format_alerts *)

Definition ticker_date_le (a b : SignalRow) : Prop :=
  str_lt (ticker (row a)) (ticker (row b))
  ∨ ticker (row a) = ticker (row b) ∧ (Date (row a) ≤ Date (row b))%Z.

Global Instance ticker_date_le_dec a b : Decision (ticker_date_le a b).
Proof. unfold ticker_date_le. apply _. Defined.

(** [res.sort_values(['ticker', 'Date'])] *)
Definition sort_values_ticker_Date (res : list SignalRow) : list SignalRow :=
  merge_sort ticker_date_le res.

(** [.groupby('ticker').tail(1)]: the rows that are the last of their
    ticker, in frame order. *)
Fixpoint groupby_ticker_tail1 (l : list SignalRow) : list SignalRow :=
  match l with
  | [] => []
  | r :: l' =>
      if decide (ticker (row r) ∈ (λ x, ticker (row x)) <$> l')
      then groupby_ticker_tail1 l'
      else r :: groupby_ticker_tail1 l'
  end.

Definition latest (res : list SignalRow) : list SignalRow :=
  groupby_ticker_tail1 (sort_values_ticker_Date res).

(** [latest[latest['signal']]] *)
Definition hit (res : list SignalRow) : list SignalRow :=
  filter (λ r, signal r = true) (latest res).

(** ["\n".join(lines)] *)
Fixpoint join_lines (lines : list str) : str :=
  match lines with
  | [] => []
  | [l] => l
  | l :: ls => l ++ 10%N :: join_lines ls
  end.

Definition header_label : str :=
  [12304; 45; 50; 48; 37; 32; 20054; 38626; 12450; 12521; 12540; 12488;
   12305]%N.
Definition no_hit_line : str := [35442; 24403; 12394; 12375]%N.
Definition date_label : str := [32; 32; 26085; 20184; 58]%N.
Definition close_label : str := [32; 32; 32066; 20516; 58]%N.
Definition sma_label : str := lit "  SMA25:".
Definition kairi_label : str := [32; 32; 20054; 38626; 58]%N.
Definition not_available : str := lit "N/A".

Section Report.
(** The clock reading [dt.datetime.now(jst).strftime(...)] and the two
    renderings Python supplies: [f"{x:.2f}"] and [date.isoformat()]. *)
Variable today : str.
Variable fmt2f : float64 → str.
Variable isoformat : Z → str.

Definition alert_line (r : SignalRow) : str :=
  let d := isoformat (Date (row r)) in
  let k := if notnull (kairi r) then fmt2f (kairi r) ++ lit "%"
           else not_available in
  let sma := if notnull (of_cell (sma25 r)) then fmt2f (of_cell (sma25 r))
             else not_available in
  ticker (row r) ++ date_label ++ d ++ close_label
    ++ fmt2f (of_cell (close (row r))) ++ sma_label ++ sma
    ++ kairi_label ++ k.

Definition report_lines (res : list SignalRow) : list str :=
  (header_label ++ today)
    :: match hit res with
       | [] => [no_hit_line]
       | _ :: _ => alert_line <$> hit res
       end.

Definition format_alerts (res : list SignalRow) : str :=
  join_lines (report_lines res).
End Report.

(** ** main *)

Record Args := {
  slack_webhook : option str;
  email_to : option str;
  email_from : option str;
  smtp_host : option str;
  smtp_port : Z;
  smtp_user : option str;
  smtp_pass : option str
}.

(** [if x:] for an optional command-line string. *)
Definition given (x : option str) : bool :=
  match x with Some s => truthy s | None => false end.

(** What a run does that can be seen from outside, in order. *)
Inductive event :=
  | StderrNoTickers
  | Download (tickers : list str)
  | Stdout (text : str)
  | SlackPost (url text : str)
  | StdoutSlackSent
  | StderrSlackError (e : str)
  | SendMail (host : str) (port : Z) (from to body : str)
  | StdoutMailSent
  | StderrMailError (e : str)
  | Traceback (e : exn).

Record run := { events : list event; exit_status : Z }.

Section Main.
Variable today : str.
Variable fmt2f : float64 → str.
Variable isoformat : Z → str.
(** [yf.download]: the batch fetched for a list of tickers. *)
Variable yf_download : list str → DataFrame.
(** The two transports; [Some e] is the exception they raised. *)
Variable send_slack : str → str → option str.
Variable send_email : Args → str → option str.

Definition notify_slack (args : Args) (text : str) : list event :=
  match slack_webhook args with
  | Some url =>
      if truthy url then
        SlackPost url text
          :: match send_slack url text with
             | None => [StdoutSlackSent]
             | Some e => [StderrSlackError e]
             end
      else []
  | None => []
  end.

Definition notify_email (args : Args) (text : str) : list event :=
  match email_to args, email_from args, smtp_host args with
  | Some to, Some from, Some host =>
      if truthy to && truthy from && truthy host then
        SendMail host (smtp_port args) from to text
          :: match send_email args text with
             | None => [StdoutMailSent]
             | Some e => [StderrMailError e]
             end
      else []
  | _, _, _ => []
  end.

(** [lines] is the content of the [--tickers] file.  An exception that
    leaves [main] ends the process with status 1; the result is [None]
    only on the [Unmodelled] path. *)
Definition main (args : Args) (lines : list str) : option run :=
  let tickers := read_tickers lines in
  match tickers with
  | [] => Some {| events := [StderrNoTickers]; exit_status := 2 |}
  | _ :: _ =>
      match fetch_prices (yf_download tickers) tickers
            ≫= compute_sma25_signals with
      | Ok res =>
          let text := format_alerts today fmt2f isoformat res in
          Some {| events := Download tickers :: Stdout text
                              :: notify_slack args text
                              ++ notify_email args text;
                  exit_status := 0 |}
      | Raise e =>
          Some {| events := [Download tickers; Traceback e];
                  exit_status := 1 |}
      | Unmodelled => None
      end
  end.
End Main.

(** ** send_slack *)

(** A lower-case hexadecimal digit. *)
Definition hexdigit (n : N) : N := (if n <? 10 then 48 + n else 87 + n)%N.

Definition hex4 (n : N) : str :=
  [hexdigit (n / 4096 mod 16); hexdigit (n / 256 mod 16);
   hexdigit (n / 16 mod 16); hexdigit (n mod 16)]%N.

(** [\uXXXX] *)
Definition u_escape (n : N) : str := 92%N :: 117%N :: hex4 n.

(** What [json.dumps] (with its default [ensure_ascii=True]) writes for one
    character of a string: the short escapes, the printable ASCII
    characters as they are, and [\uXXXX] for the rest, a surrogate pair
    above the basic plane. *)
Definition json_escape_char (c : N) : str :=
  (if c =? 34 then [92; 34]
   else if c =? 92 then [92; 92]
   else if c =? 10 then [92; 110]
   else if c =? 13 then [92; 114]
   else if c =? 9 then [92; 116]
   else if c =? 8 then [92; 98]
   else if c =? 12 then [92; 102]
   else if (32 <=? c) && (c <=? 126) then [c]
   else if c <? 65536 then u_escape c
   else u_escape (55296 + (c - 65536) / 1024)
          ++ u_escape (56320 + c mod 1024))%N.

Definition json_escape (s : str) : str := s ≫= json_escape_char.

(** [json.dumps({"text": text})] *)
Definition json_dumps_text (text : str) : str :=
  [123; 34; 116; 101; 120; 116; 34; 58; 32; 34]%N ++ json_escape text
    ++ [34; 125]%N.

(** [s.encode("utf-8")]; [None] is [UnicodeEncodeError], raised for a
    surrogate. *)
Definition utf8_char (c : N) : option (list N) :=
  (if c <? 128 then Some [c]
   else if c <? 2048 then Some [192 + c / 64; 128 + c mod 64]
   else if (55296 <=? c) && (c <=? 57343) then None
   else if c <? 65536 then
     Some [224 + c / 4096; 128 + c / 64 mod 64; 128 + c mod 64]
   else
     Some [240 + c / 262144; 128 + c / 4096 mod 64; 128 + c / 64 mod 64;
           128 + c mod 64])%N.

Definition utf8_encode (s : str) : option (list N) :=
  mjoin <$> mapM utf8_char s.

(** The request [Request(webhook_url, data=payload, headers=...)]. *)
Record Request := {
  req_url : str;
  req_data : list N;
  req_content_type : str
}.

(** [urlopen] is the network: [Some e] is the exception it raised. *)
Definition send_slack (urlopen : Request → option str)
    (webhook_url text : str) : option str :=
  match utf8_encode (json_dumps_text text) with
  | Some payload =>
      urlopen {| req_url := webhook_url; req_data := payload;
                 req_content_type := lit "application/json" |}
  | None => Some (lit "UnicodeEncodeError")
  end.

(** ** send_email *)

(** The message [MIMEText(body, _charset="utf-8")] with its three
    headers; building it and rendering it with [as_string] are taken not
    to raise. *)
Record Message := {
  msg_subject : str;
  msg_from : str;
  msg_to : str;
  msg_body : str
}.

(** What the function asks of [smtplib], in order. *)
Inductive smtp_cmd :=
  | Connect (host : str) (port : Z)
  | StartTLS
  | Login (username password : str)
  | SendMailTo (from_addr : str) (to_addrs : list str) (msg : Message)
  | Quit.

Global Instance Message_eq_dec : EqDecision Message.
Proof. solve_decision. Defined.
Global Instance smtp_cmd_eq_dec : EqDecision smtp_cmd.
Proof. solve_decision. Defined.

(** The statements of the [try] block, run until one raises. *)
Fixpoint run_smtp (smtp : smtp_cmd → option str) (cmds : list smtp_cmd)
  : list smtp_cmd * option str :=
  match cmds with
  | [] => ([], None)
  | c :: cs =>
      match smtp c with
      | Some e => ([c], Some e)
      | None => let '(done, err) := run_smtp smtp cs in (c :: done, err)
      end
  end.

(** [if username and password: s.login(username, password)] *)
Definition login_cmd (username password : option str) : list smtp_cmd :=
  match username, password with
  | Some u, Some p => if truthy u && truthy p then [Login u p] else []
  | _, _ => []
  end.

(** [smtp] is the server: [Some e] is the exception a call raised.  The
    result is the calls made and the exception that leaves the function: an
    exception of [s.quit()] in the [finally] block takes the place of one
    raised in the [try] block. *)
Definition send_email (smtp : smtp_cmd → option str)
    (smtp_host : str) (smtp_port : Z)
    (from_addr to_addr subject body : str)
    (username password : option str) (use_tls : bool)
  : list smtp_cmd * option str :=
  let msg := {| msg_subject := subject; msg_from := from_addr;
                msg_to := to_addr; msg_body := body |} in
  let s := Connect smtp_host smtp_port in
  match smtp s with
  | Some e => ([s], Some e)
  | None =>
      let '(done, err) :=
        run_smtp smtp
          ((if use_tls then [StartTLS] else [])
             ++ login_cmd username password
             ++ [SendMailTo from_addr [to_addr] msg]) in
      (s :: done ++ [Quit],
       match smtp Quit with Some e => Some e | None => err end)
  end.

Definition mail_subject : str :=
  [50; 53; 26085; 32218; 32; 45; 50; 48; 37; 20054; 38626; 12450; 12521;
   12540; 12488]%N.

(** The call of [send_email] in [main]; [use_tls] keeps its default. *)
Definition main_send_email (smtp : smtp_cmd → option str)
    (args : Args) (text : str) : list smtp_cmd * option str :=
  send_email smtp (default [] (smtp_host args)) (smtp_port args)
    (default [] (email_from args)) (default [] (email_to args))
    mail_subject text (smtp_user args) (smtp_pass args) true.

(** ** Vocabulary of the statements *)

(** The rows of instrument [t] in a normalized frame, in frame order: the
    group [g] of [t] in [compute_sma25_signals]. *)
Definition group (df : list PriceRow) (t : str) : list PriceRow :=
  filter (λ r, ticker r = t) df.

(** The chronologically ordered series of [t]: its group after
    [sort_values('Date')]. *)
Definition series (df : list PriceRow) (t : str) : list PriceRow :=
  sort_values_Date (group df t).

(** The result rows of [t]. *)
Definition records (df : list PriceRow) (t : str) : list SignalRow :=
  compute_group (group df t).

(** The closes of the 25 rows of a series that end at row [i]. *)
Definition closes25 (s : list PriceRow) (i : nat) : column :=
  close <$> take 25 (drop (i - 24) s).

(** The [Close] column [fetch_prices] finds for [t], when it finds one. *)
Definition has_close (data : DataFrame) (t : str) : Prop :=
  ∃ c, select_close (select_ticker (cols data) t) = Ok c.

Definition close_column (data : DataFrame) (t : str) : column :=
  match select_close (select_ticker (cols data) t) with
  | Ok c => c
  | _ => []
  end.

(** The frame [fetch_prices] appends for [t]. *)
Definition frame_of (data : DataFrame) (t : str) : list PriceRow :=
  frame_rows (index data) (close_column data t) t.

Definition date_lt (a b : PriceRow) : Prop := (Date a < Date b)%Z.

(** No two rows of the frame have the same ticker and date. *)
Definition unique_dates (df : list PriceRow) : Prop :=
  ∀ a b, a ∈ df → b ∈ df → ticker a = ticker b → Date a = Date b → a = b.

(** A string that neither starts nor ends with white space. *)
Definition stripped (s : str) : Prop :=
  (∀ c, head s = Some c → isspace c = false)
  ∧ (∀ c, last s = Some c → isspace c = false).

(** A Unicode scalar value: a code point that is not a surrogate. *)
Definition scalar (c : N) : Prop :=
  (c < 55296 ∨ 57343 < c ∧ c ≤ 1114111)%N.

(** Reading back what [json_escape_char] writes, used to tell payloads
    apart: the value of a hexadecimal digit, of four of them, of a short
    escape, and the first character of an escaped string with what
    follows it. *)
Definition unhexdigit (d : N) : N := (if d <? 58 then d - 48 else d - 87)%N.

Definition unhex4 (h3 h2 h1 h0 : N) : N :=
  (4096 * unhexdigit h3 + 256 * unhexdigit h2 + 16 * unhexdigit h1
   + unhexdigit h0)%N.

Definition unshort (x : N) : N :=
  (if x =? 110 then 10 else if x =? 114 then 13 else if x =? 116 then 9
   else if x =? 98 then 8 else if x =? 102 then 12 else x)%N.

Definition decode_first (s : str) : option (N * str) :=
  match s with
  | [] => None
  | c :: rest =>
      if (c =? 92)%N then
        match rest with
        | [] => None
        | x :: rest1 =>
            if (x =? 117)%N then
              match rest1 with
              | h3 :: h2 :: h1 :: h0 :: rest2 =>
                  let n := unhex4 h3 h2 h1 h0 in
                  if ((55296 <=? n) && (n <? 56320))%N then
                    match rest2 with
                    | _ :: _ :: l3 :: l2 :: l1 :: l0 :: rest3 =>
                        Some ((65536 + (n - 55296) * 1024
                               + (unhex4 l3 l2 l1 l0 - 56320))%N, rest3)
                    | _ => None
                    end
                  else Some (n, rest2)
              | _ => None
              end
            else Some (unshort x, rest1)
        end
      else Some (c, rest)
  end.

(** ** The pipeline in binary64

    The comparison [close < sma25 * 0.8] is sensitive to rounding at the
    threshold, so the computed columns are also modelled in binary64: a
    finite double is the rational it denotes, an operation is the exact
    operation followed by [round], and [0.8] is the double nearest to it.
    The one thing the source does not fix is how pandas sums a window: the
    float64 value of the rolling mean is the parameter [mean64], which sees
    the column up to the row it is computed for. *)
Module F64.

(** [2 ^ k] for an integer [k]. *)
Definition pow2 (k : Z) : Q :=
  if (0 <=? k)%Z then inject_Z (2 ^ k) else (/ inject_Z (2 ^ (- k)))%Q.

(** The integer nearest to [q], a tie going to the even one. *)
Definition round_half_even (q : Q) : Z :=
  let n := Qnum q in
  let d := Zpos (Qden q) in
  let fl := (n / d)%Z in
  match (2 * (n mod d) ?= d)%Z with
  | Lt => fl
  | Gt => (fl + 1)%Z
  | Eq => if Z.even fl then fl else (fl + 1)%Z
  end.

(** The integer [e] with [2 ^ e <= a < 2 ^ (e + 1)], for [0 < a]. *)
Definition ilog2 (a : Q) : Z :=
  let e := (Z.log2 (Qnum a) - Z.log2 (Zpos (Qden a)))%Z in
  if Qlt_bool a (pow2 e) then (e - 1)%Z else e.

(** Rounding to nearest, ties to even, with 53 bits of precision down to
    the subnormal step [2 ^ -1074], and overflow to an infinity from
    [2 ^ 1024] on. *)
Definition round (q : Q) : float64 :=
  if Qeq_bool q 0 then Fin 0
  else
    let a := Qabs q in
    let k := Z.max (ilog2 a - 52) (-1074) in
    let r := Qred (inject_Z (round_half_even (a / pow2 k)) * pow2 k) in
    if Qle_bool (pow2 1024) r then (if Qlt_bool 0 q then PInf else NInf)
    else Fin (if Qlt_bool 0 q then r else - r).

Definition mul (x y : float64) : float64 :=
  match x, y with
  | Fin a, Fin b => round (a * b)
  | _, _ => fmul x y
  end.

Definition div (x y : float64) : float64 :=
  match x, y with
  | Fin a, Fin b =>
      if Qeq_bool b 0 then inf_of_sign (Qsgn a) else round (a / b)
  | _, _ => fdiv x y
  end.

Definition sub (x y : float64) : float64 :=
  match x, y with
  | Fin a, Fin b => round (a - b)
  | _, _ => fsub x y
  end.

(** The double written [0.8]. *)
Definition c0_8 : Q := 3602879701896397 # 4503599627370496.

(** A row of the result frame, the average being a float64 of its own
    (NaN where it is undefined). *)
Record SignalRow := {
  row : PriceRow;
  sma25 : float64;
  kairi : float64;
  signal : bool
}.

(** The columns [kairi] and [signal] of one row. *)
Definition add_columns (r : PriceRow) (m : float64) : SignalRow :=
  {| row := r;
     sma25 := m;
     kairi := mul (sub (div (of_cell (close r)) m) (Fin 1)) (Fin 100);
     signal := flt (of_cell (close r)) (mul m (Fin c0_8)) |}.

Section Rolling.
Variable mean64 : column → float64.

(** [xs.rolling(n, min_periods=min_periods).mean()]: NaN where the window
    has fewer than [min_periods] observations, the float64 mean
    elsewhere. *)
Definition rolling_mean (n min_periods : nat) (xs : column) : list float64 :=
  imap (λ i _,
          let obs := observations (window n xs i) in
          if decide (min_periods ≤ length obs ∧ 0 < length obs)
          then mean64 (take (S i) xs)
          else NaN) xs.

Definition compute_group (g : list PriceRow) : list SignalRow :=
  let g := sort_values_Date g in
  zip_with add_columns g (rolling_mean 25 25 (close <$> g)).

Definition compute_sma25_signals (df : list PriceRow)
  : outcome (list SignalRow) :=
  pd_concat ((λ tg, compute_group tg.2) <$> groupby_ticker df).

(** The result rows of [t]. *)
Definition records (df : list PriceRow) (t : str) : list SignalRow :=
  compute_group (group df t).
End Rolling.

End F64.

(** A rolling mean for the scenarios: the sum of the last 25 observations,
    rounded once, divided by 25. *)
Definition mean_of_rounded_sum (xs : column) : float64 :=
  F64.div
    (F64.round (Qsum (observations (window 25 xs (length xs - 1)))))
    (Fin 25).

(** ** Scenarios

    Concrete batches on which the statements below are evaluated. *)

Definition tX : str := lit "X".
Definition tY : str := lit "Y".

(** The dates [1 .. n]. *)
Definition days (n : nat) : list Z := Z.of_nat <$> seq 1 n.

(** Twenty-four closes of 100, then 79: a drop of more than 20% below the
    average of the 25. *)
Definition closes_drop : column := replicate 24 (Some 100%Q) ++ [Some 79%Q].

Definition batch_drop : DataFrame :=
  {| index := days 25; cols := TwoLevel {[ tX := {[ Close := closes_drop ]} ]} |}.

Definition df_drop : list PriceRow := frame_rows (days 25) closes_drop tX.

Definition res_drop : list SignalRow :=
  Eval vm_compute in
    match compute_sma25_signals df_drop with Ok res => res | _ => [] end.

Definition row_drop : PriceRow :=
  {| Date := 25; close := Some 79%Q; ticker := tX |}.

Definition rec_drop : SignalRow :=
  {| row := row_drop; sma25 := Some (2479 # 25)%Q;
     kairi := Fin (-50400 # 2479)%Q; signal := true |}.

(** The drop, followed by a day back at 100. *)
Definition df_recovered : list PriceRow :=
  frame_rows (days 26) (closes_drop ++ [Some 100%Q]) tX.

Definition res_recovered : list SignalRow :=
  Eval vm_compute in
    match compute_sma25_signals df_recovered with Ok res => res | _ => [] end.

(** The same, with the close of the first day missing. *)
Definition closes_gap : column :=
  None :: replicate 23 (Some 100%Q) ++ [Some 79%Q].

Definition batch_gap : DataFrame :=
  {| index := days 25; cols := OneLevel {[ Close := closes_gap ]} |}.

Definition df_gap : list PriceRow := frame_rows (days 25) closes_gap tX.

Definition res_gap : list SignalRow :=
  Eval vm_compute in
    match compute_sma25_signals df_gap with Ok res => res | _ => [] end.

Definition row_gap : PriceRow :=
  {| Date := 1; close := None; ticker := tX |}.

Definition rec_gap : SignalRow :=
  {| row := row_drop; sma25 := None; kairi := NaN; signal := false |}.

(** Three instruments, two of which drop. *)
Definition tW : str := lit "W".

Definition batch_three : DataFrame :=
  {| index := days 25;
     cols := TwoLevel {[ tX := {[ Close := closes_drop ]};
                         tY := {[ Close := replicate 25 (Some 100%Q) ]};
                         tW := {[ Close := closes_drop ]} ]} |}.

(** Its normalized frame, for the request X, Y, W. *)
Definition df_three : list PriceRow :=
  frame_rows (days 25) closes_drop tX
    ++ frame_rows (days 25) (replicate 25 (Some 100%Q)) tY
    ++ frame_rows (days 25) closes_drop tW.

Definition res_three : list SignalRow :=
  Eval vm_compute in
    match compute_sma25_signals df_three with Ok res => res | _ => [] end.

(** Twenty-four days only, the last one far below the others. *)
Definition df_short : list PriceRow :=
  frame_rows (days 24) (replicate 23 (Some 100%Q) ++ [Some 10%Q]) tY.

Definition res_short : list SignalRow :=
  Eval vm_compute in
    match compute_sma25_signals df_short with Ok res => res | _ => [] end.

(** Twenty-six days, the close of the second day missing: the window that
    ends on the last day holds the gap, although 25 closes exist. *)
Definition closes_gap26 : column :=
  Some 100%Q :: None :: replicate 24 (Some 100%Q).

Definition df_gap26 : list PriceRow := frame_rows (days 26) closes_gap26 tX.

Definition res_gap26 : list SignalRow :=
  Eval vm_compute in
    match compute_sma25_signals df_gap26 with Ok res => res | _ => [] end.

Definition rec_gap26 : SignalRow :=
  {| row := {| Date := 26; close := Some 100%Q; ticker := tX |};
     sma25 := None; kairi := NaN; signal := false |}.

(** The doubles written [1.6125] and [1.075]. *)
Definition c1_6125 : Q := 7262054399134925 # 4503599627370496.
Definition c1_075 : Q := 4841369599423283 # 4503599627370496.

(** Twenty-three closes of 1.34375, then 1.6125 and 1.075: the mean is
    1.34375 and the last close is the double [1.34375 * 0.8] itself, a
    little below the rational [1.34375 * 8 / 10]. *)
Definition closes_threshold : column :=
  replicate 23 (Some (43 # 32)%Q) ++ [Some c1_6125; Some c1_075].

Definition df_threshold : list PriceRow :=
  frame_rows (days 25) closes_threshold tX.

Definition res_threshold : list F64.SignalRow :=
  Eval vm_compute in
    match F64.compute_sma25_signals mean_of_rounded_sum df_threshold with
    | Ok res => res
    | _ => []
    end.

Definition row_threshold : PriceRow :=
  {| Date := 25; close := Some c1_075; ticker := tX |}.

Definition rec_threshold : F64.SignalRow :=
  {| F64.row := row_threshold;
     F64.sma25 := Fin (43 # 32)%Q;
     F64.kairi := Fin (-2814749767106561 # 140737488355328)%Q;
     F64.signal := false |}.

(** The tickers of the alert lines of a whole run. *)
Definition alert_tickers (data : DataFrame) (tickers : list str)
  : outcome (list str) :=
  df ← fetch_prices data tickers;
  res ← compute_sma25_signals df;
  Ok ((λ r, ticker (row r)) <$> hit res).

(** A batch that lists the first date twice. *)
Definition batch_dup : DataFrame :=
  {| index := [1; 1; 2]%Z;
     cols := OneLevel {[ Close := [Some 10%Q; Some 11%Q; Some 12%Q] ]} |}.

Definition df_dup : list PriceRow :=
  frame_rows [1; 1; 2]%Z [Some 10%Q; Some 11%Q; Some 12%Q] tX.

(** A run without notification channels, with stub renderings. *)
Definition plain_args : Args :=
  {| slack_webhook := None; email_to := None; email_from := None;
     smtp_host := None; smtp_port := 587; smtp_user := None;
     smtp_pass := None |}.

Definition plain_main (data : DataFrame) (lines : list str) : option run :=
  main [] (λ _, []) (λ _, []) (λ _, data) (λ _ _, None) (λ _ _, None)
       plain_args lines.

Global Instance exn_eq_dec : EqDecision exn.
Proof. solve_decision. Defined.
Global Instance event_eq_dec : EqDecision event.
Proof. solve_decision. Defined.

(** A run with both channels asked for, over transports that fail. *)
Definition full_args : Args :=
  {| slack_webhook := Some (lit "https://hooks.example/T");
     email_to := Some (lit "to@example.org");
     email_from := Some (lit "from@example.org");
     smtp_host := Some (lit "smtp.example.org"); smtp_port := 587;
     smtp_user := Some (lit "user"); smtp_pass := Some (lit "secret") |}.

Definition failing_main (data : DataFrame) (lines : list str) : option run :=
  main [] (λ _, []) (λ _, []) (λ _, data)
       (λ _ _, Some (lit "HTTP Error 404"))
       (λ _ _, Some (lit "Connection refused"))
       full_args lines.

Definition run_failing : run :=
  Eval vm_compute in
    default {| events := []; exit_status := 0 |}
            (failing_main batch_drop [lit "X"]).

(** A batch without a single day. *)
Definition batch_empty : DataFrame :=
  {| index := []; cols := TwoLevel {[ tX := {[ Close := [] ]} ]} |}.

(** A server that accepts everything, and one that refuses STARTTLS. *)
Definition smtp_ok : smtp_cmd → option str := λ _, None.

Definition smtp_no_tls : smtp_cmd → option str := λ c,
  match c with StartTLS => Some (lit "STARTTLS not supported") | _ => None end.

(** * Properties *)

(** ** The order on [str] *)

Lemma str_ltb_lexico (a b : str) : str_ltb a b = true ↔ lexico a b.
Proof.
  revert b. induction a as [|x a IH]; intros [|y b]; simpl; try easy.
  change (lexico (x :: a) (y :: b))
    with (lexico x y ∨ x = y ∧ lexico a b).
  unfold lexico at 1, N_lexico.
  destruct (N.ltb_spec x y) as [Hlt|Hge].
  - split; auto.
  - destruct (N.eqb_spec x y) as [->|Hne].
    + rewrite IH. split; [auto|]. intros [?|[_ ?]]; [lia|done].
    + split; [done|]. intros [?|[? _]]; [lia|done].
Qed.

Global Instance str_lt_strict : StrictOrder str_lt.
Proof.
  split.
  - intros a H. apply str_ltb_lexico in H.
    by apply (irreflexivity lexico a).
  - intros a b c H1 H2. apply str_ltb_lexico.
    apply str_ltb_lexico in H1, H2. by trans b.
Qed.

Lemma str_trichotomy (a b : str) : str_lt a b ∨ a = b ∨ str_lt b a.
Proof.
  unfold str_lt. rewrite !str_ltb_lexico.
  destruct (trichotomyT lexico a b) as [[?|?]|?]; auto.
Qed.

Lemma str_le_iff (a b : str) : str_le a b ↔ a = b ∨ str_lt a b.
Proof.
  unfold str_le. split.
  - intros H. destruct (str_trichotomy a b) as [?|[?|Hba]]; auto.
    unfold str_lt in Hba. congruence.
  - intros [->|H].
    + apply not_true_is_false. apply (irreflexivity str_lt).
    + apply not_true_is_false. intros H'.
      apply (irreflexivity str_lt a). by trans b.
Qed.

Global Instance str_le_total : Total str_le.
Proof.
  intros a b. rewrite !str_le_iff.
  destruct (str_trichotomy a b) as [?|[?|?]]; auto.
Qed.

Global Instance str_le_trans : Transitive str_le.
Proof.
  intros a b c. rewrite !str_le_iff.
  intros [->|H1] [->|H2]; auto. right. by trans b.
Qed.

Global Instance str_le_antisym : AntiSymm (=) str_le.
Proof.
  intros a b. rewrite !str_le_iff. intros [?|H1] [?|H2]; auto.
  exfalso. apply (irreflexivity str_lt a). by trans b.
Qed.

Global Instance date_le_total : Total date_le.
Proof. intros a b. unfold date_le. lia. Qed.

Global Instance date_le_trans : Transitive date_le.
Proof. intros a b c. unfold date_le. lia. Qed.

Global Instance ticker_date_le_total : Total ticker_date_le.
Proof.
  intros a b. unfold ticker_date_le.
  destruct (str_trichotomy (ticker (row a)) (ticker (row b)))
    as [?|[Heq|?]]; auto.
  rewrite Heq. destruct (Z.le_ge_cases (Date (row a)) (Date (row b))); auto.
Qed.

Global Instance ticker_date_le_trans : Transitive ticker_date_le.
Proof.
  intros a b c. unfold ticker_date_le.
  intros [H1|[E1 D1]] [H2|[E2 D2]].
  - left. by trans (ticker (row b)).
  - left. by rewrite <- E2.
  - left. by rewrite E1.
  - right. split; [congruence|lia].
Qed.

(** ** Comparisons on [Q] *)

Lemma Qlt_bool_iff (x y : Q) : Qlt_bool x y = true ↔ (x < y)%Q.
Proof.
  unfold Qlt_bool. rewrite negb_true_iff. split.
  - intros H. apply Qnot_le_lt. intros Hle.
    apply Qle_bool_iff in Hle. congruence.
  - intros H. apply not_true_is_false. intros Hle.
    apply Qle_bool_iff in Hle. by apply Qlt_not_le in H.
Qed.

Lemma Qeq_bool_false (x y : Q) : ¬ (x == y)%Q → Qeq_bool x y = false.
Proof.
  intros H. apply not_true_is_false. intros E. by apply Qeq_bool_iff in E.
Qed.

(** ** Windows and their means *)

Lemma length_observations_le (w : column) :
  length (observations w) ≤ length w.
Proof.
  unfold observations. induction w as [|[q|] w IH]; csimpl; lia.
Qed.

Lemma observations_Some (cs : list Q) : observations (Some <$> cs) = cs.
Proof.
  unfold observations. induction cs as [|c cs IH]; csimpl; [done|].
  by rewrite IH.
Qed.

Lemma observations_None_lt (w : column) (j : nat) :
  w !! j = Some None → length (observations w) < length w.
Proof.
  revert j. induction w as [|x w IH]; intros j Hj; [done|].
  destruct j as [|j]; simpl in Hj.
  - injection Hj as ->. pose proof (length_observations_le w).
    unfold observations in *. csimpl. lia.
  - apply IH in Hj. unfold observations in *.
    destruct x; csimpl; lia.
Qed.

Lemma column_cases (w : column) :
  (∃ cs, w = Some <$> cs) ∨ (∃ j, w !! j = Some None).
Proof.
  induction w as [|[q|] w [[cs ->]|[j Hj]]].
  - left. by exists [].
  - left. by exists (q :: cs).
  - right. by exists (S j).
  - right. by exists 0.
  - right. by exists 0.
Qed.

Lemma window_mean_short (n : nat) (w : column) :
  length w < n → window_mean n w = None.
Proof.
  intros H. unfold window_mean. pose proof (length_observations_le w).
  case_decide; [lia|done].
Qed.

Lemma window_mean_None (n : nat) (w : column) (j : nat) :
  length w ≤ n → w !! j = Some None → window_mean n w = None.
Proof.
  intros H Hj. unfold window_mean. apply observations_None_lt in Hj.
  case_decide; [lia|done].
Qed.

Lemma window_mean_full (cs : list Q) :
  length cs = 25 → window_mean 25 (Some <$> cs) = Some (Qsum cs / 25)%Q.
Proof.
  intros H. unfold window_mean. rewrite observations_Some, H.
  case_decide; [done|lia].
Qed.

Lemma window_mean_Some (n : nat) (w : column) (m : Q) :
  length w ≤ n → window_mean n w = Some m →
  n ≤ length w ∧ ∃ cs, w = Some <$> cs.
Proof.
  intros Hlen Hm. unfold window_mean in Hm.
  case_decide as Hd; [|done]. pose proof (length_observations_le w).
  split; [lia|]. destruct (column_cases w) as [?|[j Hj]]; [done|].
  apply observations_None_lt in Hj. lia.
Qed.

Lemma length_window_le (n : nat) (xs : column) (i : nat) :
  length (window n xs i) ≤ n ∧ length (window n xs i) ≤ S i.
Proof. unfold window. rewrite length_drop, length_take. lia. Qed.

Lemma window_full (xs : column) (i : nat) :
  24 ≤ i → window 25 xs i = take 25 (drop (i - 24) xs).
Proof.
  intros H. unfold window. rewrite take_drop_commute.
  replace (S i - 25) with (i - 24) by lia.
  by replace (i - 24 + 25) with (S i) by lia.
Qed.

Lemma window_lookup (n : nat) (xs : column) (i j : nat) (x : option Q) :
  S i - n ≤ j → j ≤ i → xs !! j = Some x →
  window n xs i !! (j - (S i - n)) = Some x.
Proof.
  intros H1 H2 Hx. unfold window. rewrite lookup_drop.
  replace (S i - n + (j - (S i - n))) with j by lia.
  rewrite lookup_take_lt by lia. done.
Qed.

(** The rolling mean at row [i], in terms of the rows before it. *)
Lemma rolling_mean_lookup (xs : column) (i : nat) :
  i < length xs →
  rolling_mean 25 25 xs !! i = Some (window_mean 25 (window 25 xs i)).
Proof.
  intros H. unfold rolling_mean. rewrite list_lookup_imap.
  destruct (lookup_lt_is_Some_2 xs i H) as [x ->]. done.
Qed.

(** ** The rows of the result frame *)

Lemma series_sorted (df : list PriceRow) (t : str) :
  Sorted date_le (series df t).
Proof. apply (Sorted_merge_sort date_le). Qed.

Lemma series_perm (df : list PriceRow) (t : str) :
  series df t ≡ₚ group df t.
Proof. apply (merge_sort_Permutation date_le). Qed.

Lemma elem_of_series (df : list PriceRow) (t : str) (p : PriceRow) :
  p ∈ series df t ↔ p ∈ df ∧ ticker p = t.
Proof.
  rewrite (series_perm df t). unfold group.
  rewrite list_elem_of_filter. tauto.
Qed.

Lemma length_records (df : list PriceRow) (t : str) :
  length (records df t) = length (series df t).
Proof.
  unfold records, compute_group, series.
  rewrite length_zip_with_l_eq; [done|].
  unfold rolling_mean. by rewrite length_imap, length_fmap.
Qed.

Lemma records_lookup (df : list PriceRow) (t : str) (i : nat) (r : SignalRow) :
  records df t !! i = Some r ↔
  ∃ p, series df t !! i = Some p
       ∧ r = add_columns p
               (window_mean 25 (window 25 (close <$> series df t) i)).
Proof.
  unfold records, compute_group. fold (series df t).
  rewrite lookup_zip_with_Some. split.
  - intros (p & m & -> & Hp & Hm). exists p. split; [done|].
    rewrite rolling_mean_lookup in Hm.
    + by injection Hm as <-.
    + rewrite length_fmap. by eapply lookup_lt_Some.
  - intros (p & Hp & ->). eexists p, _. split; [done|]. split; [done|].
    apply rolling_mean_lookup. rewrite length_fmap.
    by eapply lookup_lt_Some.
Qed.

Lemma elem_of_unique_sorted (ks : list str) (k : str) :
  k ∈ unique_sorted ks ↔ k ∈ ks.
Proof.
  unfold unique_sorted. rewrite (merge_sort_Permutation str_le).
  apply elem_of_remove_dups.
Qed.

Lemma compute_output (df : list PriceRow) (res : list SignalRow) :
  compute_sma25_signals df = Ok res →
  res = mjoin (records df <$> unique_sorted (ticker <$> df)).
Proof.
  unfold compute_sma25_signals, groupby_ticker.
  rewrite <- list_fmap_compose. unfold pd_concat.
  change ((λ tg : str * list PriceRow, compute_group tg.2)
            ∘ (λ t, (t, filter (λ r, ticker r = t) df))) with (records df).
  destruct (records df <$> _) eqn:E; [done|].
  by intros [= <-].
Qed.

(** The result frame holds the rows of every instrument, and nothing
    else. *)
Lemma output_rows (df : list PriceRow) (res : list SignalRow) (r : SignalRow) :
  compute_sma25_signals df = Ok res →
  r ∈ res ↔ ∃ t i, records df t !! i = Some r.
Proof.
  intros H. rewrite (compute_output df res H), list_elem_of_join. split.
  - intros (l & Hr & Hl). apply list_elem_of_fmap in Hl as (t & -> & _).
    apply list_elem_of_lookup in Hr as [i Hi]. eauto.
  - intros (t & i & Hi). exists (records df t). split.
    + apply list_elem_of_lookup. eauto.
    + apply list_elem_of_fmap_2, elem_of_unique_sorted.
      apply records_lookup in Hi as (p & Hp & _).
      apply list_elem_of_lookup_2, elem_of_series in Hp as [Hp <-].
      by apply list_elem_of_fmap_2.
Qed.

(** ** The computed columns of one row *)

Lemma add_columns_signal (p : PriceRow) (m : option Q) :
  signal (add_columns p m) = true ↔
  ∃ m' c, m = Some m' ∧ close p = Some c ∧ (c < m' * (8 # 10))%Q.
Proof.
  unfold add_columns. simpl. destruct m as [m'|], (close p) as [c|]; simpl.
  - rewrite Qlt_bool_iff. split; [by eauto|].
    by intros (? & ? & [= <-] & [= <-] & ?).
  - split; [done|]. by intros (? & ? & _ & ? & _).
  - split; [done|]. by intros (? & ? & ? & _).
  - split; [done|]. by intros (? & ? & ? & _).
Qed.

Lemma add_columns_undefined (p : PriceRow) :
  kairi (add_columns p None) = NaN ∧ signal (add_columns p None) = false.
Proof. unfold add_columns. simpl. by destruct (close p). Qed.

Lemma add_columns_kairi (p : PriceRow) (c m : Q) :
  close p = Some c →
  (¬ (m == 0)%Q →
     kairi (add_columns p (Some m)) = Fin ((c / m - 1) * 100)%Q)
  ∧ ((m == 0)%Q →
     kairi (add_columns p (Some m)) = inf_of_sign (Qsgn c)).
Proof.
  intros Hc. unfold add_columns. simpl. rewrite Hc. simpl. split.
  - intros Hm. by rewrite (Qeq_bool_false _ _ Hm).
  - intros Hm. apply Qeq_bool_iff in Hm. rewrite Hm.
    by destruct (Qsgn c).
Qed.

(** The average of a row of a series: [None] before the 25th row and when
    a close of the window is missing, the mean of the 25 closes
    otherwise. *)
Lemma sma25_early (s : list PriceRow) (i : nat) :
  i < 24 → window_mean 25 (window 25 (close <$> s) i) = None.
Proof.
  intros H. apply window_mean_short.
  pose proof (length_window_le 25 (close <$> s) i). lia.
Qed.

Lemma sma25_missing (s : list PriceRow) (i j : nat) (p : PriceRow) :
  i - 24 ≤ j → j ≤ i → s !! j = Some p → close p = None →
  window_mean 25 (window 25 (close <$> s) i) = None.
Proof.
  intros H1 H2 Hp Hc.
  apply (window_mean_None 25 _ (j - (S i - 25))).
  - apply length_window_le.
  - apply window_lookup; [lia|lia|].
    by rewrite list_lookup_fmap, Hp, <- Hc.
Qed.

Lemma closes25_window (s : list PriceRow) (i : nat) :
  24 ≤ i → window 25 (close <$> s) i = closes25 s i.
Proof.
  intros H. rewrite window_full by done. unfold closes25.
  by rewrite fmap_take, fmap_drop.
Qed.

Lemma length_closes25 (s : list PriceRow) (i : nat) :
  24 ≤ i → i < length s → length (closes25 s i) = 25.
Proof.
  intros H1 H2. unfold closes25.
  rewrite length_fmap, length_take, length_drop. lia.
Qed.

(** ** The rows of the result frame in binary64 *)

Lemma f64_rolling_mean_lookup
    (mean64 : column → float64) (n mp : nat) (xs : column) (i : nat) :
  i < length xs →
  F64.rolling_mean mean64 n mp xs !! i
  = Some (if decide (mp ≤ length (observations (window n xs i))
                     ∧ 0 < length (observations (window n xs i)))
          then mean64 (take (S i) xs) else NaN).
Proof.
  intros H. unfold F64.rolling_mean. rewrite list_lookup_imap.
  destruct (lookup_lt_is_Some_2 xs i H) as [x ->]. done.
Qed.

Lemma f64_records_lookup
    (mean64 : column → float64) (df : list PriceRow) (t : str)
    (i : nat) (r : F64.SignalRow) :
  F64.records mean64 df t !! i = Some r ↔
  ∃ p m, series df t !! i = Some p
         ∧ F64.rolling_mean mean64 25 25 (close <$> series df t) !! i
           = Some m
         ∧ r = F64.add_columns p m.
Proof.
  unfold F64.records, F64.compute_group. fold (series df t).
  rewrite lookup_zip_with_Some. split.
  - intros (p & m & -> & Hp & Hm). by exists p, m.
  - intros (p & m & Hp & Hm & ->). by exists p, m.
Qed.

Lemma f64_rolling_mean_early
    (mean64 : column → float64) (xs : column) (i : nat) (m : float64) :
  i < 24 → F64.rolling_mean mean64 25 25 xs !! i = Some m → m = NaN.
Proof.
  intros Hi Hm.
  pose proof (lookup_lt_Some _ _ _ Hm) as Hlen.
  unfold F64.rolling_mean in Hlen. rewrite length_imap in Hlen.
  rewrite f64_rolling_mean_lookup in Hm by done.
  injection Hm as <-.
  pose proof (length_observations_le (window 25 xs i)).
  pose proof (length_window_le 25 xs i).
  case_decide; [lia|done].
Qed.

Lemma f64_compute_output
    (mean64 : column → float64) (df : list PriceRow)
    (res : list F64.SignalRow) :
  F64.compute_sma25_signals mean64 df = Ok res →
  res = mjoin (F64.records mean64 df <$> unique_sorted (ticker <$> df)).
Proof.
  unfold F64.compute_sma25_signals, groupby_ticker.
  rewrite <- list_fmap_compose. unfold pd_concat.
  change ((λ tg : str * list PriceRow, F64.compute_group mean64 tg.2)
            ∘ (λ t, (t, filter (λ r, ticker r = t) df)))
    with (F64.records mean64 df).
  destruct (F64.records mean64 df <$> _) eqn:E; [done|].
  by intros [= <-].
Qed.

Lemma f64_output_rows
    (mean64 : column → float64) (df : list PriceRow)
    (res : list F64.SignalRow) (r : F64.SignalRow) :
  F64.compute_sma25_signals mean64 df = Ok res →
  r ∈ res ↔ ∃ t i, F64.records mean64 df t !! i = Some r.
Proof.
  intros H. rewrite (f64_compute_output mean64 df res H), list_elem_of_join.
  split.
  - intros (l & Hr & Hl). apply list_elem_of_fmap in Hl as (t & -> & _).
    apply list_elem_of_lookup in Hr as [i Hi]. eauto.
  - intros (t & i & Hi). exists (F64.records mean64 df t). split.
    + apply list_elem_of_lookup. eauto.
    + apply list_elem_of_fmap_2, elem_of_unique_sorted.
      apply f64_records_lookup in Hi as (p & m & Hp & _ & _).
      apply list_elem_of_lookup_2, elem_of_series in Hp as [Hp <-].
      by apply list_elem_of_fmap_2.
Qed.

(** The test [close < m * 0.8] of one row, by the value of the average. *)
Lemma f64_add_columns_signal (p : PriceRow) (m : float64) :
  F64.signal (F64.add_columns p m) = true ↔
  ∃ c, close p = Some c
       ∧ match m with
         | Fin a =>
             F64.round (a * F64.c0_8) = PInf
             ∨ ∃ q, F64.round (a * F64.c0_8) = Fin q ∧ (c < q)%Q
         | PInf => True
         | NInf | NaN => False
         end.
Proof.
  unfold F64.add_columns. simpl. destruct (close p) as [c|]; simpl.
  - destruct m as [a| | |]; simpl.
    + destruct (F64.round (a * F64.c0_8)) as [q| | |]; simpl.
      * rewrite Qlt_bool_iff. split.
        -- intros H. exists c. split; [done|]. right. by exists q.
        -- intros (c' & [= <-] & [H|(q' & [= <-] & H)]); [done|done].
      * split; [intros _; exists c; split; [done|by left]|done].
      * split; [done|].
        intros (c' & _ & [H|(q' & H & _)]); discriminate H.
      * split; [done|].
        intros (c' & _ & [H|(q' & H & _)]); discriminate H.
    + split; [intros _; by exists c|done].
    + split; [done|]. by intros (c' & _ & []).
    + split; [done|]. by intros (c' & _ & []).
  - split; [done|]. by intros (c' & H & _).
Qed.

(** ** The Deviation Calculator *)

(** C1.  For every row of the result frame, computed in binary64 with any
    rolling mean: [signal] is true exactly when the average is defined
    (not NaN), the close is defined, and the close is below the product of
    the average and the double [0.8], this product being rounded to
    binary64 (an infinite average is above every close when it is positive,
    below when it is negative).  The double [0.8] is the rounding of 8/10.
    A row whose average is undefined has a false [signal], and this is the
    case of every row before the 25th of its series. *)
Theorem signal_iff_below_threshold
    (mean64 : column → float64)
    (df : list PriceRow) (res : list F64.SignalRow) (r : F64.SignalRow) :
  F64.compute_sma25_signals mean64 df = Ok res →
  r ∈ res →
  (F64.signal r = true ↔
     ∃ c, close (F64.row r) = Some c
          ∧ match F64.sma25 r with
            | Fin m =>
                F64.round (m * F64.c0_8) = PInf
                ∨ ∃ q, F64.round (m * F64.c0_8) = Fin q ∧ (c < q)%Q
            | PInf => True
            | NInf | NaN => False
            end)
  ∧ F64.round (8 # 10) = Fin F64.c0_8
  ∧ (F64.sma25 r = NaN → F64.signal r = false)
  ∧ (∀ t i, F64.records mean64 df t !! i = Some r → i < 24 →
       F64.sma25 r = NaN ∧ F64.signal r = false).
Proof.
  intros Hres Hr.
  assert (Hnan : F64.sma25 r = NaN → F64.signal r = false).
  { intros Hm. apply not_true_is_false. intros Hs.
    apply (f64_output_rows mean64 df res r Hres) in Hr as (t & i & Hi).
    apply f64_records_lookup in Hi as (p & m & _ & _ & ->).
    apply f64_add_columns_signal in Hs as (c & _ & Hs).
    simpl in Hm. by rewrite Hm in Hs. }
  split; [|split; [by vm_compute|split; [exact Hnan|]]].
  - apply (f64_output_rows mean64 df res r Hres) in Hr as (t & i & Hi).
    apply f64_records_lookup in Hi as (p & m & _ & _ & ->).
    apply f64_add_columns_signal.
  - intros t i Hi Hlt.
    assert (F64.sma25 r = NaN) as Hm.
    { apply f64_records_lookup in Hi as (p & m & _ & Hm & ->). simpl.
      by eapply f64_rolling_mean_early. }
    split; [exact Hm|by apply Hnan].
Qed.

(** At the threshold: the average is 1.34375, its product with the double
    [0.8] is the double 1.075, and the close, which is that double, is not
    below it. *)
Lemma signal_iff_below_threshold_witness :
  F64.sma25 rec_threshold = Fin (43 # 32)%Q
  ∧ close (F64.row rec_threshold) = Some c1_075
  ∧ F64.round ((43 # 32) * F64.c0_8) = Fin c1_075
  ∧ F64.signal rec_threshold = false
  ∧ (F64.signal rec_threshold = true ↔
       ∃ c, close (F64.row rec_threshold) = Some c
            ∧ match F64.sma25 rec_threshold with
              | Fin m =>
                  F64.round (m * F64.c0_8) = PInf
                  ∨ ∃ q, F64.round (m * F64.c0_8) = Fin q ∧ (c < q)%Q
              | PInf => True
              | NInf | NaN => False
              end).
Proof.
  split; [reflexivity|]. split; [reflexivity|].
  split; [vm_compute; reflexivity|]. split; [reflexivity|].
  apply (signal_iff_below_threshold mean_of_rounded_sum
           df_threshold res_threshold rec_threshold).
  - vm_compute. reflexivity.
  - apply (list_elem_of_lookup_2 _ 24). vm_compute. reflexivity.
Defined.

(** The same row in exact arithmetic: the close is below 8/10 of the
    mean, by less than the rounding of the product, and [signal] is
    true. *)
Example threshold_in_exact_arithmetic :
  (c1_075 < (43 # 32) * (8 # 10))%Q
  ∧ ∃ r m, records df_threshold tX !! 24 = Some r
           ∧ row r = row_threshold
           ∧ sma25 r = Some m ∧ (m == 43 # 32)%Q
           ∧ signal r = true.
Proof.
  split; [by vm_compute|].
  eexists _, _. split; [vm_compute; reflexivity|].
  split; [reflexivity|]. split; [reflexivity|]. split; by vm_compute.
Qed.

(** The drop to 79 after 24 closes of 100 is a signal in binary64 as
    well. *)
Example signal_drop_binary64 :
  ∃ m k, F64.records mean_of_rounded_sum df_drop tX !! 24
         = Some {| F64.row := row_drop; F64.sma25 := Fin m;
                   F64.kairi := Fin k; F64.signal := true |}
         ∧ (99 < m < 100)%Q ∧ (-21 < k < -20)%Q.
Proof.
  eexists _, _. split; [vm_compute; reflexivity|].
  split; split; by vm_compute.
Qed.

(** [round] on some doubles and non-doubles: a double is left alone, 1/10
    goes to the double written [0.1], a tie goes to the even neighbour, the
    largest double stays finite and half a step more overflows. *)
Example round_values :
  F64.round (43 # 32) = Fin (43 # 32)%Q
  ∧ F64.round (1 # 10) = Fin (3602879701896397 # 36028797018963968)%Q
  ∧ F64.round (9007199254740993 # 1) = Fin (9007199254740992 # 1)%Q
  ∧ F64.round (9007199254740995 # 1) = Fin (9007199254740996 # 1)%Q
  ∧ F64.round (- (1 # 3)) = Fin (- (6004799503160661 # 18014398509481984))%Q
  ∧ F64.round (inject_Z (2 ^ 1024 - 2 ^ 971))
    = Fin (inject_Z (2 ^ 1024 - 2 ^ 971))
  ∧ F64.round (inject_Z (2 ^ 1024 - 2 ^ 970)) = PInf
  ∧ F64.round (/ inject_Z (2 ^ 1075)) = Fin 0%Q
  ∧ F64.round ((3 # 1) * / inject_Z (2 ^ 1075)) = Fin (/ inject_Z (2 ^ 1073))%Q.
Proof. vm_compute. repeat split; reflexivity. Qed.

(** The binary64 average is defined on the rows on which the exact one
    is. *)
Lemma f64_rolling_mean_defined
    (mean64 : column → float64) (xs : column) (i : nat) :
  i < length xs →
  F64.rolling_mean mean64 25 25 xs !! i
  = Some (match window_mean 25 (window 25 xs i) with
          | Some _ => mean64 (take (S i) xs)
          | None => NaN
          end).
Proof.
  intros H. rewrite f64_rolling_mean_lookup by done.
  unfold window_mean. by case_decide.
Qed.

(** C2.  For every instrument [t] and every position [i] of its series,
    which holds the rows of [t] in date order: the average of the row is
    undefined before the 25th row; from the 25th row on it is the mean of
    the 25 closes that end at row [i], and undefined when one of them is
    missing.  An average that is defined is the mean of exactly 25 closes.
    The mean is the exact one, sum / 25, in rational arithmetic; in
    binary64 the average is NaN on the same rows and elsewhere the value
    the rolling mean returns at the row. *)
Theorem sma25_is_mean_of_25_closes
    (mean64 : column → float64)
    (df : list PriceRow) (res : list SignalRow)
    (t : str) (i : nat) (r : SignalRow) :
  compute_sma25_signals df = Ok res →
  records df t !! i = Some r →
  r ∈ res
  ∧ Sorted date_le (series df t)
  ∧ series df t ≡ₚ filter (λ p, ticker p = t) df
  ∧ series df t !! i = Some (row r)
  ∧ (i < 24 → sma25 r = None)
  ∧ (24 ≤ i →
       length (closes25 (series df t) i) = 25
       ∧ (∀ cs, closes25 (series df t) i = Some <$> cs →
            sma25 r = Some (Qsum cs / 25)%Q)
       ∧ ((∃ j, closes25 (series df t) i !! j = Some None) →
            sma25 r = None))
  ∧ (∀ m, sma25 r = Some m →
       24 ≤ i
       ∧ ∃ cs, length cs = 25
               ∧ closes25 (series df t) i = Some <$> cs
               ∧ m = (Qsum cs / 25)%Q)
  ∧ (∃ r64, F64.records mean64 df t !! i = Some r64
            ∧ F64.row r64 = row r
            ∧ (sma25 r = None → F64.sma25 r64 = NaN)
            ∧ (is_Some (sma25 r) →
                 F64.sma25 r64
                 = mean64 (take (S i) (close <$> series df t)))).
Proof.
  intros Hres Hi.
  assert (Hin : r ∈ res) by (apply (output_rows df res r Hres); eauto).
  apply records_lookup in Hi as (p & Hp & ->). simpl.
  pose proof (lookup_lt_Some _ _ _ Hp) as Hlen.
  split; [done|]. split; [apply series_sorted|].
  split; [apply series_perm|].
  split; [done|]. split; [apply sma25_early|]. split; [|split].
  - intros Hi. rewrite closes25_window by done.
    pose proof (length_closes25 (series df t) i Hi Hlen) as H25.
    split; [done|]. split.
    + intros cs Hcs. rewrite Hcs. apply window_mean_full.
      by rewrite Hcs, length_fmap in H25.
    + intros [j Hj]. apply (window_mean_None 25 _ j); [lia|done].
  - intros m Hm.
    destruct (decide (i < 24)) as [Hlt|Hge].
    { by rewrite sma25_early in Hm. }
    assert (24 ≤ i) as Hi by lia. split; [done|].
    rewrite closes25_window in Hm by done.
    pose proof (length_closes25 (series df t) i Hi Hlen) as H25.
    destruct (window_mean_Some 25 _ m (Nat.eq_le_incl _ _ H25) Hm)
      as [_ [cs Hcs]].
    exists cs. rewrite Hcs, length_fmap in H25.
    split; [done|]. split; [done|].
    rewrite Hcs, (window_mean_full cs H25) in Hm. by injection Hm.
  - eexists (F64.add_columns p _). split.
    + apply f64_records_lookup. eexists p, _. split; [done|].
      split; [|done]. apply f64_rolling_mean_defined.
      by rewrite length_fmap.
    + simpl. split; [done|].
      destruct (window_mean 25 _) as [m|]; split; try done.
Qed.

Lemma sma25_is_mean_of_25_closes_witness :
  rec_drop ∈ res_drop
  ∧ series df_drop tX !! 24 = Some row_drop
  ∧ closes25 (series df_drop tX) 24 = closes_drop
  ∧ sma25 rec_drop = Some (Qsum (replicate 24 100%Q ++ [79%Q]) / 25)%Q
  ∧ ∃ r64, F64.records mean_of_rounded_sum df_drop tX !! 24 = Some r64
           ∧ F64.sma25 r64 = mean_of_rounded_sum closes_drop.
Proof.
  assert (Hres : compute_sma25_signals df_drop = Ok res_drop)
    by (vm_compute; reflexivity).
  assert (Hrec : records df_drop tX !! 24 = Some rec_drop)
    by (vm_compute; reflexivity).
  destruct (sma25_is_mean_of_25_closes mean_of_rounded_sum
              df_drop res_drop tX 24 rec_drop Hres Hrec)
    as (Hin & _ & _ & Hrow & _ & Hfull & _ & (r64 & H64 & _ & _ & Hm64)).
  destruct (Hfull ltac:(lia)) as (_ & Hmean & _).
  split; [exact Hin|]. split; [exact Hrow|].
  split; [vm_compute; reflexivity|].
  split; [apply Hmean; vm_compute; reflexivity|].
  exists r64. split; [exact H64|].
  rewrite Hm64 by (by eexists). f_equal.
Defined.

(** C2, as stated, fails: a row can have 25 rows or more up to it, and 25
    closes or more among them, and still no average, because one of the 25
    closes that end at it is missing. *)
Lemma sma25_undefined_with_25_closes :
  ¬ (∀ df res t i r,
       compute_sma25_signals df = Ok res →
       records df t !! i = Some r →
       24 ≤ i →
       25 ≤ length (observations (close <$> take (S i) (series df t))) →
       is_Some (sma25 r)).
Proof.
  intros H.
  assert (is_Some (sma25 rec_gap26)) as [m Hm]; [|discriminate Hm].
  apply (H df_gap26 res_gap26 tX 25 rec_gap26).
  - vm_compute. reflexivity.
  - vm_compute. reflexivity.
  - lia.
  - vm_compute. lia.
Qed.

(** On the 25-day frame whose first close is missing the 25th row has no
    average either. *)
Example sma25_undefined_first_close_missing :
  records df_gap tX !! 24 = Some rec_gap ∧ sma25 rec_gap = None.
Proof. split; [vm_compute|]; reflexivity. Qed.

(** The exact mean need not be a double: 24 closes of 1 and one of 2 have
    the mean 26/25, which rounding moves. *)
Example exact_mean_is_no_double :
  (Qsum (replicate 24 1%Q ++ [2%Q]) / 25 == 26 # 25)%Q
  ∧ F64.round (26 # 25) = Fin (1170935903116329 # 1125899906842624)%Q
  ∧ ¬ (1170935903116329 # 1125899906842624 == 26 # 25)%Q.
Proof. split; [by vm_compute|]. split; [by vm_compute|]. by vm_compute. Qed.

(** C8.  For every row of the result frame whose average [m] is defined,
    the close [c] is defined too and the deviation is
    [(c / m - 1) * 100]; when [m] is zero the division gives an infinity
    of the sign of [c], or NaN for [c = 0]. *)
Theorem kairi_is_percent_deviation
    (df : list PriceRow) (res : list SignalRow) (r : SignalRow) (m : Q) :
  compute_sma25_signals df = Ok res →
  r ∈ res →
  sma25 r = Some m →
  ∃ c, close (row r) = Some c
       ∧ (¬ (m == 0)%Q → kairi r = Fin ((c / m - 1) * 100)%Q)
       ∧ ((m == 0)%Q → kairi r = inf_of_sign (Qsgn c)).
Proof.
  intros Hres Hr Hm.
  apply (output_rows df res r Hres) in Hr as (t & i & Hi).
  apply records_lookup in Hi as (p & Hp & ->). simpl in Hm.
  destruct (close p) as [c|] eqn:Hc.
  - exists c. split; [exact Hc|]. rewrite Hm. by apply add_columns_kairi.
  - by rewrite (sma25_missing (series df t) i i p) in Hm by (done || lia).
Qed.

Lemma kairi_is_percent_deviation_witness :
  ∃ c, close (row rec_drop) = Some c
       ∧ (¬ (2479 # 25 == 0)%Q →
            kairi rec_drop = Fin ((c / (2479 # 25) - 1) * 100)%Q)
       ∧ ((2479 # 25 == 0)%Q → kairi rec_drop = inf_of_sign (Qsgn c)).
Proof.
  apply (kairi_is_percent_deviation df_drop res_drop rec_drop).
  - vm_compute. reflexivity.
  - apply (bool_decide_unpack _). vm_compute. exact I.
  - reflexivity.
Defined.

(** C10.  [signal] is a boolean on every row of the result frame, and a
    row whose window (the 25 rows of its series that end at it, itself
    included) holds a missing close has an undefined average, an undefined
    deviation and a false [signal]. *)
Theorem missing_close_blocks_signal
    (df : list PriceRow) (res : list SignalRow)
    (t : str) (i : nat) (r : SignalRow) :
  compute_sma25_signals df = Ok res →
  records df t !! i = Some r →
  r ∈ res
  ∧ (signal r = true ∨ signal r = false)
  ∧ (∀ j p, i - 24 ≤ j → j ≤ i →
       series df t !! j = Some p → close p = None →
       sma25 r = None ∧ kairi r = NaN ∧ signal r = false).
Proof.
  intros Hres Hi.
  assert (Hin : r ∈ res) by (apply (output_rows df res r Hres); eauto).
  split; [done|]. split; [destruct (signal r); auto|].
  intros j p H1 H2 Hp Hc.
  apply records_lookup in Hi as (q & Hq & ->). simpl.
  rewrite (sma25_missing (series df t) i j p) by done.
  split; [done|]. apply add_columns_undefined.
Qed.

Lemma missing_close_blocks_signal_witness :
  rec_gap ∈ res_gap
  ∧ sma25 rec_gap = None ∧ kairi rec_gap = NaN ∧ signal rec_gap = false.
Proof.
  assert (Hres : compute_sma25_signals df_gap = Ok res_gap)
    by (vm_compute; reflexivity).
  assert (Hrec : records df_gap tX !! 24 = Some rec_gap)
    by (vm_compute; reflexivity).
  destruct (missing_close_blocks_signal df_gap res_gap tX 24 rec_gap
              Hres Hrec) as (Hin & _ & Hgap).
  split; [exact Hin|].
  apply (Hgap 0 row_gap); [lia|lia|vm_compute; reflexivity|reflexivity].
Defined.

(** ** The Report Formatter *)

Lemma sorted_ticker_Date (res : list SignalRow) :
  StronglySorted ticker_date_le (sort_values_ticker_Date res).
Proof. apply (StronglySorted_merge_sort ticker_date_le). Qed.

Lemma elem_of_sort_ticker_Date (res : list SignalRow) (r : SignalRow) :
  r ∈ sort_values_ticker_Date res ↔ r ∈ res.
Proof.
  unfold sort_values_ticker_Date.
  by rewrite (merge_sort_Permutation ticker_date_le).
Qed.

Lemma tail1_elem_of (l : list SignalRow) (r : SignalRow) :
  r ∈ groupby_ticker_tail1 l → r ∈ l.
Proof.
  induction l as [|a l IH]; simpl; [done|].
  case_decide; [right; auto|].
  intros [->|H']%elem_of_cons; [left|right; auto].
Qed.

(** A row kept by [tail(1)] has no later row of its ticker. *)
Lemma tail1_split (l : list SignalRow) (r : SignalRow) :
  r ∈ groupby_ticker_tail1 l →
  ∃ l1 l2, l = l1 ++ r :: l2
           ∧ ticker (row r) ∉ (λ x, ticker (row x)) <$> l2.
Proof.
  induction l as [|a l IH]; simpl; [by intros ?%elem_of_nil|].
  case_decide as Hd.
  - intros (l1 & l2 & -> & ?)%IH. by exists (a :: l1), l2.
  - intros [->|(l1 & l2 & -> & ?)%IH]%elem_of_cons.
    + by exists [], l.
    + by exists (a :: l1), l2.
Qed.

Lemma tail1_last (l1 l2 : list SignalRow) (r : SignalRow) :
  ticker (row r) ∉ (λ x, ticker (row x)) <$> l2 →
  r ∈ groupby_ticker_tail1 (l1 ++ r :: l2).
Proof.
  intros H. induction l1 as [|a l1 IH]; simpl.
  - case_decide; [done|]. by left.
  - case_decide; [done|]. by right.
Qed.

Lemma tail1_tickers_sorted (l : list SignalRow) :
  StronglySorted ticker_date_le l →
  StronglySorted str_lt ((λ x, ticker (row x)) <$> groupby_ticker_tail1 l).
Proof.
  induction 1 as [|a l Hl IH Ha]; simpl; [constructor|].
  case_decide as Hd; [done|]. csimpl. constructor; [done|].
  apply Forall_fmap, Forall_forall. intros x Hx%tail1_elem_of. simpl.
  rewrite Forall_forall in Ha. destruct (Ha x Hx) as [?|[E _]]; [done|].
  destruct Hd. rewrite E. by apply (list_elem_of_fmap_2 (λ x, ticker (row x))).
Qed.

Lemma filter_tickers_sorted (P : SignalRow → Prop) `{∀ x, Decision (P x)}
    (l : list SignalRow) :
  StronglySorted str_lt ((λ x, ticker (row x)) <$> l) →
  StronglySorted str_lt ((λ x, ticker (row x)) <$> filter P l).
Proof.
  induction l as [|a l IH]; [done|]. csimpl.
  intros [Ha Hl]%StronglySorted_cons. rewrite filter_cons.
  case_decide; [|auto]. csimpl. apply StronglySorted_cons. split; [|auto].
  rewrite Forall_fmap, Forall_forall in Ha |- *.
  intros x [_ Hx]%list_elem_of_filter. by apply Ha.
Qed.

Lemma StronglySorted_str_lt_NoDup (l : list str) :
  StronglySorted str_lt l → NoDup l.
Proof.
  induction 1 as [|a l Hl IH Ha]; constructor; [|done].
  intros Hin. rewrite Forall_forall in Ha.
  by apply (irreflexivity str_lt a), Ha.
Qed.

Lemma hit_tickers_sorted (res : list SignalRow) :
  StronglySorted str_lt ((λ x, ticker (row x)) <$> hit res).
Proof.
  unfold hit, latest. apply filter_tickers_sorted, tail1_tickers_sorted.
  apply sorted_ticker_Date.
Qed.

(** A row of [latest] is dated last among the rows of its ticker. *)
Lemma latest_is_last (res : list SignalRow) (r r' : SignalRow) :
  r ∈ latest res → r' ∈ res → ticker (row r') = ticker (row r) →
  (Date (row r') ≤ Date (row r))%Z.
Proof.
  unfold latest. intros (l1 & l2 & E & Hl2)%tail1_split Hr' Ht.
  pose proof (sorted_ticker_Date res) as Hs. rewrite E in Hs.
  apply elem_of_sort_ticker_Date in Hr'. rewrite E in Hr'.
  apply elem_of_app in Hr' as [Hr'|[->|Hr']%elem_of_cons]; [|lia|].
  - apply StronglySorted_app in Hs as (Hs & _ & _).
    destruct (Hs r' r Hr' ltac:(left)) as [Hlt|[_ ?]]; [|done].
    rewrite Ht in Hlt. by apply (irreflexivity str_lt) in Hlt.
  - destruct Hl2. rewrite <- Ht.
    by apply (list_elem_of_fmap_2 (λ x, ticker (row x))).
Qed.

(** The row dated strictly last of its ticker is in [latest]. *)
Lemma last_is_latest (res : list SignalRow) (r : SignalRow) :
  r ∈ res →
  (∀ r', r' ∈ res → ticker (row r') = ticker (row r) → r' ≠ r →
         (Date (row r') < Date (row r))%Z) →
  r ∈ latest res.
Proof.
  intros Hr Hlast. unfold latest.
  apply elem_of_sort_ticker_Date in Hr.
  destruct (list_elem_of_split_r _ _ Hr) as (l1 & l2 & E & Hnot).
  pose proof (sorted_ticker_Date res) as Hs. rewrite E in Hs |- *.
  apply tail1_last. intros (x & Ht & Hx)%list_elem_of_fmap.
  assert (x ≠ r) as Hne by congruence.
  assert (x ∈ res) as Hres.
  { apply elem_of_sort_ticker_Date. rewrite E.
    apply elem_of_app. right. by right. }
  specialize (Hlast x Hres (eq_sym Ht) Hne).
  apply StronglySorted_app in Hs as (_ & _ & Hs).
  apply StronglySorted_cons in Hs as [Hall _].
  rewrite Forall_forall in Hall.
  destruct (Hall x Hx) as [Hlt|[_ ?]]; [|lia].
  rewrite Ht in Hlt. by apply (irreflexivity str_lt) in Hlt.
Qed.

(** The text of a report: the first line, then every other line after a
    line feed. *)
Lemma join_lines_cons (l : str) (ls : list str) :
  join_lines (l :: ls) = l ++ (ls ≫= λ x, 10%N :: x).
Proof.
  revert l. induction ls as [|l' ls IH]; intros l.
  - simpl. by rewrite app_nil_r.
  - change (join_lines (l :: l' :: ls))
      with (l ++ 10%N :: join_lines (l' :: ls)).
    rewrite IH. by csimpl.
Qed.

Lemma format_alerts_text
    (today : str) (fmt2f : float64 → str) (isoformat : Z → str)
    (res : list SignalRow) :
  format_alerts today fmt2f isoformat res
  = header_label ++ today
      ++ ((if decide (hit res = []) then [no_hit_line]
           else alert_line fmt2f isoformat <$> hit res)
            ≫= λ line, 10%N :: line).
Proof.
  unfold format_alerts, report_lines.
  rewrite join_lines_cons, <- app_assoc. by destruct (hit res).
Qed.

(** C3.  The report is the header line followed by one line for each row
    of [hit], in this order, or by the no-hit line when [hit] is empty; the
    line of a row starts with the ticker of the row and shows its date,
    close, average and deviation.  The rows of [hit] have pairwise distinct
    tickers, so there is at most one line per instrument; a row of [hit] is
    a row of the result frame with a true [signal] that is dated last among
    the rows of its instrument, and the row dated strictly last of an
    instrument is in [hit], hence gives a line, exactly when its [signal]
    is true. *)
Theorem report_lines_are_latest_hits
    (today : str) (fmt2f : float64 → str) (isoformat : Z → str)
    (res : list SignalRow) :
  format_alerts today fmt2f isoformat res
  = header_label ++ today
      ++ ((if decide (hit res = []) then [no_hit_line]
           else alert_line fmt2f isoformat <$> hit res)
            ≫= λ line, 10%N :: line)
  ∧ (∀ r, alert_line fmt2f isoformat r
          = ticker (row r)
              ++ date_label ++ isoformat (Date (row r))
              ++ close_label ++ fmt2f (of_cell (close (row r)))
              ++ sma_label
              ++ (if notnull (of_cell (sma25 r))
                  then fmt2f (of_cell (sma25 r)) else not_available)
              ++ kairi_label
              ++ (if notnull (kairi r)
                  then fmt2f (kairi r) ++ lit "%" else not_available))
  ∧ NoDup ((λ r, ticker (row r)) <$> hit res)
  ∧ (∀ r, r ∈ hit res →
       r ∈ res ∧ signal r = true
       ∧ ∀ r', r' ∈ res → ticker (row r') = ticker (row r) →
               (Date (row r') ≤ Date (row r))%Z)
  ∧ (∀ r, r ∈ res →
       (∀ r', r' ∈ res → ticker (row r') = ticker (row r) → r' ≠ r →
              (Date (row r') < Date (row r))%Z) →
       (r ∈ hit res ↔ signal r = true)).
Proof.
  split; [apply format_alerts_text|]. split; [done|].
  split; [apply StronglySorted_str_lt_NoDup, hit_tickers_sorted|].
  split.
  - intros r [Hs Hr]%list_elem_of_filter. split; [|split; [done|]].
    + by apply elem_of_sort_ticker_Date, tail1_elem_of.
    + intros r'. by apply latest_is_last.
  - intros r Hr Hlast. unfold hit. rewrite list_elem_of_filter.
    pose proof (last_is_latest res r Hr Hlast). tauto.
Qed.

(** The drop on the last day gives the one alert row; a window with a
    missing close gives none; and a drop on the day before the last gives
    none either, although the result frame has a row with a true
    [signal]. *)
Example hit_drop : hit res_drop = [rec_drop].
Proof. vm_compute. reflexivity. Qed.

Example hit_gap : hit res_gap = [].
Proof. vm_compute. reflexivity. Qed.

Example hit_recovered :
  rec_drop ∈ res_recovered ∧ signal rec_drop = true ∧ hit res_recovered = [].
Proof.
  split; [|split; vm_compute; reflexivity].
  apply (bool_decide_unpack _). vm_compute. exact I.
Qed.

(** The alert tickers of a run over three instruments, asked for in the
    order X, Y, W. *)
Example alert_tickers_three :
  alert_tickers batch_three [tX; tY; tW] = Ok [tW; tX].
Proof. vm_compute. reflexivity. Qed.

(** The report of that run, with stub renderings: the header, then the
    line of W and the line of X; and the report of a run without a hit. *)
Example format_alerts_three :
  format_alerts (lit "T") (λ _, lit "#") (λ _, lit "D") res_three
  = header_label ++ lit "T"
      ++ 10%N :: tW ++ date_label ++ lit "D" ++ close_label ++ lit "#"
                 ++ sma_label ++ lit "#" ++ kairi_label ++ lit "#%"
      ++ 10%N :: tX ++ date_label ++ lit "D" ++ close_label ++ lit "#"
                 ++ sma_label ++ lit "#" ++ kairi_label ++ lit "#%".
Proof. vm_compute. reflexivity. Qed.

Example format_alerts_no_hit :
  format_alerts (lit "T") (λ _, lit "#") (λ _, lit "D") res_gap
  = header_label ++ lit "T" ++ 10%N :: no_hit_line.
Proof. vm_compute. reflexivity. Qed.

(** ** Independence from the order of the input *)

Lemma series_Permutation (df df' : list PriceRow) (t : str) :
  df ≡ₚ df' → unique_dates df → series df' t = series df t.
Proof.
  intros Hp Hu. apply (Sorted_unique_strong date_le).
  - intros a b [Ha <-]%elem_of_series [Hb Ht]%elem_of_series H1 H2.
    rewrite <- Hp in Ha. apply Hu; [done|done|done|].
    unfold date_le in *. lia.
  - apply series_sorted.
  - apply series_sorted.
  - rewrite !series_perm. unfold group. by rewrite Hp.
Qed.

Lemma records_Permutation (df df' : list PriceRow) (t : str) :
  df ≡ₚ df' → unique_dates df → records df' t = records df t.
Proof.
  intros Hp Hu. unfold records, compute_group.
  fold (series df t) (series df' t). by rewrite (series_Permutation df df').
Qed.

Lemma unique_sorted_Permutation (ks ks' : list str) :
  ks ≡ₚ ks' → unique_sorted ks' = unique_sorted ks.
Proof.
  intros Hp. apply (Sorted_unique str_le).
  - apply (Sorted_merge_sort str_le).
  - apply (Sorted_merge_sort str_le).
  - unfold unique_sorted. rewrite !(merge_sort_Permutation str_le).
    apply NoDup_Permutation; [apply NoDup_remove_dups..|].
    intros x. by rewrite !elem_of_remove_dups, Hp.
Qed.

Lemma compute_Permutation (df df' : list PriceRow) :
  df ≡ₚ df' → unique_dates df →
  compute_sma25_signals df' = compute_sma25_signals df.
Proof.
  intros Hp Hu. unfold compute_sma25_signals, groupby_ticker.
  rewrite <- !list_fmap_compose.
  rewrite (unique_sorted_Permutation (ticker <$> df) (ticker <$> df'))
    by (by rewrite Hp).
  f_equal. apply list_fmap_ext. intros _ t _. simpl.
  apply (records_Permutation df df' t Hp Hu).
Qed.

(** ** What [fetch_prices] returns *)

Lemma fetch_frames_Ok (data : DataFrame) (tickers : list str)
    (fs : list (list PriceRow)) :
  fetch_frames data tickers = Ok fs ↔
  Forall (has_close data) tickers ∧ fs = frame_of data <$> tickers.
Proof.
  revert fs. induction tickers as [|t ts IH]; intros fs; simpl.
  - split; [by intros [= <-]|by intros [_ ->]].
  - unfold frame_of at 1, close_column, has_close at 1.
    rewrite Forall_cons. fold (has_close data t).
    destruct (select_close (select_ticker (cols data) t)) as [c| |] eqn:Ec;
      simpl.
    + destruct (fetch_frames data ts) as [rest| |] eqn:Er; simpl.
      * destruct (proj1 (IH rest) eq_refl) as [Hall ->]. split.
        -- intros [= <-]. split; [|done]. split; [|done].
           unfold has_close. rewrite Ec. eauto.
        -- by intros [_ ->].
      * split; [done|]. intros [[_ Hall] ->].
        by pose proof (proj2 (IH _) (conj Hall eq_refl)).
      * split; [done|]. intros [[_ Hall] ->].
        by pose proof (proj2 (IH _) (conj Hall eq_refl)).
    + split; [done|]. intros [[[c Hc] _] _]. unfold has_close in Hc.
      congruence.
    + split; [done|]. intros [[[c Hc] _] _]. congruence.
Qed.

Lemma fetch_prices_Ok (data : DataFrame) (tickers : list str)
    (df : list PriceRow) :
  fetch_prices data tickers = Ok df ↔
  tickers ≠ [] ∧ Forall (has_close data) tickers
  ∧ df = mjoin (frame_of data <$> tickers).
Proof.
  unfold fetch_prices.
  destruct (fetch_frames data tickers) as [fs| |] eqn:E; simpl.
  - apply fetch_frames_Ok in E as [Hall ->].
    destruct tickers as [|t ts]; simpl.
    + split; [done|]. by intros [? _].
    + split; [intros [= <-]; by auto|]. by intros (_ & _ & ->).
  - split; [done|]. intros (_ & Hall & _).
    pose proof (proj2 (fetch_frames_Ok data tickers _)
                  (conj Hall eq_refl)). congruence.
  - split; [done|]. intros (_ & Hall & _).
    pose proof (proj2 (fetch_frames_Ok data tickers _)
                  (conj Hall eq_refl)). congruence.
Qed.

Lemma fetch_prices_Permutation (data : DataFrame) (tickers tickers' : list str)
    (df : list PriceRow) :
  tickers ≡ₚ tickers' → fetch_prices data tickers = Ok df →
  ∃ df', fetch_prices data tickers' = Ok df' ∧ df' ≡ₚ df.
Proof.
  intros Hp (Hne & Hall & ->)%fetch_prices_Ok.
  exists (mjoin (frame_of data <$> tickers')). split.
  - apply fetch_prices_Ok. split; [|split; [by rewrite <- Hp|done]].
    intros ->. by apply Permutation_nil_r in Hp.
  - by rewrite Hp.
Qed.

Lemma frame_of_ticker (data : DataFrame) (t : str) (p : PriceRow) :
  p ∈ frame_of data t → ticker p = t.
Proof.
  unfold frame_of, frame_rows.
  by intros (d & x & -> & _ & _)%elem_of_zip_with.
Qed.

Lemma frame_of_lookup (data : DataFrame) (t : str) (i : nat) (d : Z)
    (x : option Q) :
  index data !! i = Some d → close_column data t !! i = Some x →
  frame_of data t !! i = Some {| Date := d; close := x; ticker := t |}.
Proof.
  intros Hd Hx. unfold frame_of, frame_rows.
  apply lookup_zip_with_Some. eauto.
Qed.

Lemma filter_frame_of (data : DataFrame) (t t' : str) :
  filter (λ r, ticker r = t) (frame_of data t')
  = if decide (t' = t) then frame_of data t' else [].
Proof.
  pose proof (frame_of_ticker data t') as H.
  induction (frame_of data t') as [|p l IH].
  - by case_decide.
  - rewrite filter_cons, IH by (intros q Hq; apply H; by right).
    rewrite (H p) by left. by case_decide.
Qed.

(** The group of [t] is the frame of [t], once for each time [t] is
    requested. *)
Lemma group_fetch (data : DataFrame) (tickers : list str) (t : str) :
  group (mjoin (frame_of data <$> tickers)) t
  = mjoin (frame_of data <$> filter (λ t', t' = t) tickers).
Proof.
  unfold group. induction tickers as [|t' ts IH]; [done|]. csimpl.
  rewrite filter_app, IH, filter_frame_of, filter_cons.
  by case_decide.
Qed.

(** The rows that are [t] in a request list are the same list, however
    the request list is ordered. *)
Lemma filter_eq_replicate (t : str) (l : list str) :
  filter (λ t', t' = t) l
  = replicate (length (filter (λ t', t' = t) l)) t.
Proof.
  induction l as [|x l IH]; [done|]. rewrite filter_cons.
  case_decide as Hx; [|done]. simpl. by rewrite Hx, <- IH.
Qed.

Lemma filter_eq_Permutation (t : str) (l l' : list str) :
  l ≡ₚ l' → filter (λ t', t' = t) l' = filter (λ t', t' = t) l.
Proof.
  intros Hp. rewrite (filter_eq_replicate t l'), (filter_eq_replicate t l).
  by rewrite Hp.
Qed.

(** The result frame does not depend on the order of the request list. *)
Lemma compute_request_order
    (data : DataFrame) (tickers tickers' : list str) :
  tickers ≡ₚ tickers' →
  compute_sma25_signals (mjoin (frame_of data <$> tickers'))
  = compute_sma25_signals (mjoin (frame_of data <$> tickers)).
Proof.
  intros Hp. unfold compute_sma25_signals, groupby_ticker.
  rewrite <- !list_fmap_compose.
  rewrite (unique_sorted_Permutation
             (ticker <$> mjoin (frame_of data <$> tickers))
             (ticker <$> mjoin (frame_of data <$> tickers')))
    by (by rewrite Hp).
  f_equal. apply list_fmap_ext. intros _ t _. simpl.
  pose proof (group_fetch data tickers t) as E.
  pose proof (group_fetch data tickers' t) as E'.
  unfold group in E, E'.
  by rewrite E, E', (filter_eq_Permutation t tickers tickers' Hp).
Qed.

(** C7.  Whatever the result frame, the alert lines of the report come in
    strictly ascending order of ticker (code point order): the report is
    the header followed by the lines of the rows of [hit], whose tickers
    ascend strictly, each line starting with its ticker; and every
    qualifying instrument is there: a row with a true [signal] that is
    dated strictly last of its instrument is a row of [hit].  The order of
    the request list does not reach the report: a request list in another
    order gives the same result frame, hence the same report. *)
Theorem report_sorted_by_ticker
    (today : str) (fmt2f : float64 → str) (isoformat : Z → str) :
  (∀ res,
     StronglySorted str_lt ((λ r, ticker (row r)) <$> hit res)
     ∧ (∀ r, r ∈ res → signal r = true →
          (∀ r', r' ∈ res → ticker (row r') = ticker (row r) → r' ≠ r →
                 (Date (row r') < Date (row r))%Z) →
          r ∈ hit res)
     ∧ (∀ r, r ∈ hit res → r ∈ res ∧ signal r = true)
     ∧ format_alerts today fmt2f isoformat res
       = header_label ++ today
           ++ ((if decide (hit res = []) then [no_hit_line]
                else alert_line fmt2f isoformat <$> hit res)
                 ≫= λ line, 10%N :: line)
     ∧ (∀ r, ∃ rest, alert_line fmt2f isoformat r
                     = ticker (row r) ++ date_label ++ rest))
  ∧ (∀ data tickers tickers' df,
       tickers ≡ₚ tickers' → fetch_prices data tickers = Ok df →
       ∃ df', fetch_prices data tickers' = Ok df'
              ∧ df' ≡ₚ df
              ∧ compute_sma25_signals df' = compute_sma25_signals df
              ∧ (compute_sma25_signals df' ≫= λ res,
                   Ok (format_alerts today fmt2f isoformat res))
                = (compute_sma25_signals df ≫= λ res,
                     Ok (format_alerts today fmt2f isoformat res))).
Proof.
  split.
  - intros res. split; [apply hit_tickers_sorted|]. split; [|split; [|split]].
    + intros r Hr Hs Hlast. unfold hit. apply list_elem_of_filter.
      split; [done|]. by apply last_is_latest.
    + intros r [Hs Hr]%list_elem_of_filter. split; [|done].
      by apply elem_of_sort_ticker_Date, tail1_elem_of.
    + apply format_alerts_text.
    + intros r. by eexists.
  - intros data tickers tickers' df Hp Hf.
    destruct (fetch_prices_Permutation data tickers tickers' df Hp Hf)
      as (df' & Hf' & Hperm).
    exists df'. split; [done|]. split; [done|].
    apply fetch_prices_Ok in Hf as (_ & _ & ->).
    apply fetch_prices_Ok in Hf' as (_ & _ & ->).
    rewrite (compute_request_order data tickers tickers' Hp). done.
Qed.

(** The same three instruments asked for in another order. *)
Example alert_tickers_three_reordered :
  alert_tickers batch_three [tW; tX; tY] = Ok [tW; tX]
  ∧ alert_tickers batch_three [tY; tX; tW] = Ok [tW; tX].
Proof. split; vm_compute; reflexivity. Qed.

(** ** The Series Normalizer *)

(** C4, as it holds.  For every requested instrument the series handed to
    the sliding window is sorted by date ascending and holds the rows of the
    instrument in the normalized frame, all of them: every cell of the
    [Close] column the batch has for the instrument gives a row, a missing
    close included. *)
Theorem series_sorted_missing_close_kept
    (data : DataFrame) (tickers : list str) (df : list PriceRow) (t : str) :
  fetch_prices data tickers = Ok df →
  t ∈ tickers →
  Sorted date_le (series df t)
  ∧ (∀ p, p ∈ series df t ↔ p ∈ df ∧ ticker p = t)
  ∧ (∀ i d x, index data !! i = Some d →
       close_column data t !! i = Some x →
       {| Date := d; close := x; ticker := t |} ∈ series df t).
Proof.
  intros (_ & _ & ->)%fetch_prices_Ok Ht.
  split; [apply series_sorted|]. split; [apply elem_of_series|].
  intros i d x Hd Hx. apply elem_of_series. split; [|done].
  apply list_elem_of_join. exists (frame_of data t). split.
  - eapply list_elem_of_lookup_2. by apply frame_of_lookup.
  - by apply list_elem_of_fmap_2.
Qed.

Lemma series_sorted_missing_close_kept_witness :
  Sorted date_le (series df_gap tX) ∧ row_gap ∈ series df_gap tX.
Proof.
  destruct (series_sorted_missing_close_kept batch_gap [tX] df_gap tX)
    as (Hs & _ & Hcell).
  - vm_compute. reflexivity.
  - left.
  - split; [exact Hs|]. apply (Hcell 0 1%Z None); vm_compute; reflexivity.
Defined.

(** C4, as stated, fails: the series of a requested instrument can hold a
    row whose close is missing. *)
Lemma missing_close_not_dropped :
  ¬ (∀ data tickers df t p,
       fetch_prices data tickers = Ok df → t ∈ tickers →
       p ∈ series df t → is_Some (close p)).
Proof.
  intros H.
  assert (is_Some (close row_gap)) as [c Hc]; [|discriminate Hc].
  apply (H batch_gap [tX] df_gap tX row_gap).
  - vm_compute. reflexivity.
  - left.
  - apply (bool_decide_unpack _). vm_compute. exact I.
Qed.

Lemma sorted_strictly_iff_NoDup (l : list PriceRow) :
  StronglySorted date_le l →
  StronglySorted date_lt l ↔ NoDup (Date <$> l).
Proof.
  induction 1 as [|a l Hl IH Ha]; csimpl.
  - split; constructor.
  - rewrite StronglySorted_cons, NoDup_cons, IH.
    rewrite Forall_forall in Ha. split.
    + intros [Hlt ?]. split; [|done].
      intros (x & E & Hx)%list_elem_of_fmap.
      rewrite Forall_forall in Hlt. specialize (Hlt x Hx).
      unfold date_lt in Hlt. lia.
    + intros [Hnot ?]. split; [|done]. apply Forall_forall. intros x Hx.
      specialize (Ha x Hx). unfold date_le, date_lt in *.
      destruct (decide (Date a = Date x)) as [E|]; [|lia].
      destruct Hnot. rewrite E. by apply list_elem_of_fmap_2.
Qed.

(** C6, as it holds.  After normalization and the sort by date, the dates
    of a series never decrease; the rows of an instrument are all kept, a
    requested instrument contributing the rows of the batch once for each
    time it is requested, and every row is a row of the sliding window.  The
    dates increase strictly exactly when those rows have distinct
    dates. *)
Theorem series_keeps_duplicate_dates
    (data : DataFrame) (tickers : list str) (df : list PriceRow) (t : str) :
  fetch_prices data tickers = Ok df →
  Sorted date_le (series df t)
  ∧ series df t ≡ₚ mjoin (frame_of data <$> filter (λ t', t' = t) tickers)
  ∧ length (records df t) = length (group df t)
  ∧ (StronglySorted date_lt (series df t) ↔ NoDup (Date <$> group df t)).
Proof.
  intros (_ & _ & ->)%fetch_prices_Ok.
  split; [apply series_sorted|]. split; [|split].
  - by rewrite series_perm, group_fetch.
  - by rewrite length_records, series_perm.
  - rewrite <- (series_perm _ t).
    apply sorted_strictly_iff_NoDup, Sorted_StronglySorted; [apply _|].
    apply series_sorted.
Qed.

Lemma series_keeps_duplicate_dates_witness :
  length (records df_dup tX) = 3
  ∧ ¬ StronglySorted date_lt (series df_dup tX).
Proof.
  destruct (series_keeps_duplicate_dates batch_dup [tX] df_dup tX)
    as (_ & _ & Hlen & Hiff).
  - vm_compute. reflexivity.
  - split; [exact Hlen|]. intros Hs. apply Hiff in Hs.
    apply NoDup_cons in Hs as [Hnot _]. apply Hnot. left.
Defined.

(** C6, as stated, fails: a batch that lists a date twice gives a series
    in which the date occurs twice. *)
Lemma duplicate_dates_not_removed :
  ¬ (∀ data tickers df t,
       fetch_prices data tickers = Ok df →
       StronglySorted date_lt (series df t)).
Proof.
  intros H.
  assert (fetch_prices batch_dup [tX] = Ok df_dup) as Hf
    by (vm_compute; reflexivity).
  specialize (H batch_dup [tX] df_dup tX Hf).
  assert (series df_dup tX
          = [ {| Date := 1; close := Some 10%Q; ticker := tX |};
              {| Date := 1; close := Some 11%Q; ticker := tX |};
              {| Date := 2; close := Some 12%Q; ticker := tX |} ]) as E
    by (vm_compute; reflexivity).
  rewrite E in H. apply StronglySorted_cons in H as [Hall _].
  apply Forall_cons in Hall as [Hlt _]. unfold date_lt in Hlt. simpl in Hlt.
  lia.
Qed.

(** ** An instrument the batch does not have *)

Lemma select_close_Raise (s : selection) (e : exn) :
  select_close s = Raise e → e = KeyError.
Proof.
  destruct s as [c|[m|m]]; simpl; [congruence| |];
    destruct (m !! Close); congruence.
Qed.

Lemma select_close_two_level (groups : gmap str (gmap str column)) (t : str) :
  groups !! Close = None →
  select_close (select_ticker (TwoLevel groups) t) ≠ Unmodelled
  ∧ (groups !! t = None →
     select_close (select_ticker (TwoLevel groups) t) = Raise KeyError).
Proof.
  intros Hc. unfold select_ticker. simpl.
  destruct (groups !! t) as [sub|]; simpl.
  - split; [|done]. by destruct (sub !! Close).
  - by rewrite Hc.
Qed.

Lemma fetch_frames_KeyError (data : DataFrame) (tickers : list str) :
  (∀ t, t ∈ tickers →
        select_close (select_ticker (cols data) t) ≠ Unmodelled) →
  ¬ Forall (has_close data) tickers →
  fetch_frames data tickers = Raise KeyError.
Proof.
  induction tickers as [|t ts IH]; intros Hun Hnot; simpl.
  - destruct Hnot. constructor.
  - destruct (select_close (select_ticker (cols data) t)) as [c|e|] eqn:E;
      simpl.
    + rewrite IH; [done| |].
      * intros t' Ht'. apply Hun. by right.
      * intros Hall. apply Hnot. constructor; [|done].
        unfold has_close. eauto.
    + by rewrite (select_close_Raise _ _ E).
    + destruct (Hun t); [left|done].
Qed.

(** C5, as it holds.  When a requested instrument is absent from a
    two-level batch (none of whose groups is named [Close]), the lookup
    falls back to the whole batch, which has no [Close] on its first column
    level: [fetch_prices] raises [KeyError].  No series is built for any
    instrument, nothing is computed or reported, and the run ends with a
    traceback and status 1. *)
Theorem absent_ticker_raises_KeyError
    (today : str) (fmt2f : float64 → str) (isoformat : Z → str)
    (yf_download : list str → DataFrame)
    (send_slack : str → str → option str)
    (send_email : Args → str → option str)
    (args : Args) (lines : list str)
    (idx : list Z) (groups : gmap str (gmap str column)) (t : str) :
  groups !! Close = None →
  groups !! t = None →
  (∀ tickers, t ∈ tickers →
     fetch_prices {| index := idx; cols := TwoLevel groups |} tickers
     = Raise KeyError)
  ∧ (t ∈ read_tickers lines →
     yf_download (read_tickers lines)
     = {| index := idx; cols := TwoLevel groups |} →
     main today fmt2f isoformat yf_download send_slack send_email args lines
     = Some {| events := [Download (read_tickers lines); Traceback KeyError];
               exit_status := 1 |}).
Proof.
  intros Hc Ht.
  assert (Hfetch : ∀ tickers, t ∈ tickers →
            fetch_prices {| index := idx; cols := TwoLevel groups |} tickers
            = Raise KeyError).
  { intros tickers Hin. unfold fetch_prices.
    rewrite fetch_frames_KeyError; [done| |].
    - intros t' _. by apply select_close_two_level.
    - intros Hall. rewrite Forall_forall in Hall.
      destruct (Hall t Hin) as [c Hok]. simpl in Hok.
      by rewrite (proj2 (select_close_two_level groups t Hc) Ht) in Hok. }
  split; [done|]. intros Hin Hdata. unfold main.
  destruct (read_tickers lines) as [|t0 ts] eqn:E.
  - by apply elem_of_nil in Hin.
  - by rewrite Hdata, (Hfetch _ Hin).
Qed.

Lemma absent_ticker_raises_KeyError_witness :
  fetch_prices batch_drop [tX; tY] = Raise KeyError
  ∧ plain_main batch_drop [lit "X"; lit "Y"]
    = Some {| events := [Download [tX; tY]; Traceback KeyError];
              exit_status := 1 |}.
Proof.
  destruct (absent_ticker_raises_KeyError
              [] (λ _, []) (λ _, []) (λ _, batch_drop)
              (λ _ _, None) (λ _ _, None) plain_args [lit "X"; lit "Y"]
              (days 25) {[ tX := {[ Close := closes_drop ]} ]} tY)
    as [Hfetch Hmain].
  - vm_compute. reflexivity.
  - vm_compute. reflexivity.
  - split.
    + apply Hfetch. right. left.
    + apply Hmain; [right; left|reflexivity].
Defined.

(** C5, as stated, fails: with X in the batch and Y requested but absent,
    [fetch_prices] gives no frame at all, so no empty series for Y. *)
Lemma absent_ticker_no_empty_series :
  ¬ (∀ idx groups tickers t,
       t ∈ tickers → groups !! t = None →
       (∃ t', t' ∈ tickers ∧ is_Some (groups !! t')) →
       ∃ df, fetch_prices {| index := idx; cols := TwoLevel groups |} tickers
             = Ok df
             ∧ series df t = [] ∧ records df t = []).
Proof.
  intros H.
  destruct (H (days 25) {[ tX := {[ Close := closes_drop ]} ]} [tX; tY] tY)
    as (df & Hf & _).
  - right. left.
  - vm_compute. reflexivity.
  - exists tX. split; [left|]. vm_compute. eauto.
  - vm_compute in Hf. discriminate Hf.
Qed.

(** ** The entry point *)

Lemma keep_line_false (l : str) :
  keep_line l ≠ true ↔ strip l = [] ∨ startswith_hash (strip l) = true.
Proof.
  unfold keep_line.
  destruct (strip l) as [|c s]; simpl; [intuition congruence|].
  destruct (c =? 35)%N; simpl; intuition congruence.
Qed.

Lemma read_tickers_nil (lines : list str) :
  read_tickers lines = [] ↔
  Forall (λ l, strip l = [] ∨ startswith_hash (strip l) = true) lines.
Proof.
  unfold read_tickers. split.
  - intros H%fmap_nil_inv. apply Forall_forall. intros l Hl.
    apply keep_line_false. intros Hk.
    by apply (filter_nil_not_elem_of _ _ l H Hk).
  - intros H. induction H as [|l ls Hl _ IH]; [done|].
    rewrite filter_cons_False; [done|]. by apply keep_line_false.
Qed.

Lemma notify_no_abort
    (send_slack : str → str → option str)
    (send_email : Args → str → option str) (args : Args) (text : str) :
  StderrNoTickers ∉ (notify_slack send_slack args text
                      ++ notify_email send_email args text).
Proof.
  unfold notify_slack, notify_email.
  repeat case_match;
    rewrite ?elem_of_app, ?elem_of_cons, ?elem_of_nil; intuition discriminate.
Qed.

(** C9.  The list of instruments is empty exactly when every line of the
    file is blank or starts with [#] once stripped.  Then [main] prints the
    complaint and exits with status 2 (success is 0) and nothing is
    downloaded.  With a list that is not empty, the run starts with the
    download and its status is 0 or 1: the abort does not occur. *)
Theorem empty_ticker_list_aborts
    (today : str) (fmt2f : float64 → str) (isoformat : Z → str)
    (yf_download : list str → DataFrame)
    (send_slack : str → str → option str)
    (send_email : Args → str → option str)
    (args : Args) (lines : list str) :
  (read_tickers lines = [] ↔
     Forall (λ l, strip l = [] ∨ startswith_hash (strip l) = true) lines)
  ∧ (read_tickers lines = [] →
     main today fmt2f isoformat yf_download send_slack send_email args lines
     = Some {| events := [StderrNoTickers]; exit_status := 2 |})
  ∧ (read_tickers lines ≠ [] →
     ∀ r, main today fmt2f isoformat yf_download send_slack send_email
               args lines = Some r →
          (∃ rest, events r = Download (read_tickers lines) :: rest)
          ∧ (StderrNoTickers ∉ events r)
          ∧ (exit_status r = 0 ∨ exit_status r = 1)%Z)
  ∧ (read_tickers lines ≠ [] →
     main today fmt2f isoformat yf_download send_slack send_email args lines
     ≠ Some {| events := [StderrNoTickers]; exit_status := 2 |}).
Proof.
  split; [apply read_tickers_nil|]. unfold main. split; [|split].
  - by intros ->.
  - intros Hne r. destruct (read_tickers lines) as [|t ts]; [done|].
    destruct (_ ≫= _) as [res| |]; intros [= <-]; simpl.
    + split; [eauto|]. split; [|auto].
      pose proof (notify_no_abort send_slack send_email args
                    (format_alerts today fmt2f isoformat res)) as Hno.
      rewrite !elem_of_cons. intuition discriminate.
    + split; [eauto|]. split; [|auto].
      rewrite !elem_of_cons, elem_of_nil. intuition discriminate.
  - intros Hne. destruct (read_tickers lines) as [|t ts]; [done|].
    by destruct (_ ≫= _).
Qed.

(** A file of blank lines and comments, and a file that names X. *)
Example main_aborts_on_comments :
  plain_main batch_drop [lit "# watch list"; [10%N]; lit "   "; lit "  #X"]
  = Some {| events := [StderrNoTickers]; exit_status := 2 |}.
Proof. vm_compute. reflexivity. Qed.

Example main_runs_on_one_ticker :
  (λ r, (head (events r), exit_status r))
    <$> plain_main batch_drop [lit "# watch list"; lit " X "]
  = Some (Some (Download [tX]), 0%Z).
Proof. vm_compute. reflexivity. Qed.

(** * Further properties *)

(** ** read_tickers *)

Lemma lstrip_head (s : str) (c : N) :
  head (lstrip s) = Some c → isspace c = false.
Proof.
  induction s as [|x s IH]; simpl; [done|].
  destruct (isspace x) eqn:E; [done|]. simpl. by intros [= <-].
Qed.

Lemma lstrip_stripped (s : str) :
  (∀ c, head s = Some c → isspace c = false) → lstrip s = s.
Proof.
  destruct s as [|x s]; simpl; [done|]. intros H.
  by rewrite (H x eq_refl).
Qed.

Lemma lstrip_suffix (s : str) : ∃ ws, s = ws ++ lstrip s.
Proof.
  induction s as [|x s [ws IH]]; simpl; [by exists []|].
  destruct (isspace x).
  - exists (x :: ws). simpl. by rewrite <- IH.
  - by exists [].
Qed.

Lemma rstrip_last (s : str) (c : N) :
  last (rstrip s) = Some c → isspace c = false.
Proof. unfold rstrip. rewrite last_reverse. apply lstrip_head. Qed.

Lemma rstrip_prefix (s : str) : ∃ ws, s = rstrip s ++ ws.
Proof.
  unfold rstrip. destruct (lstrip_suffix (reverse s)) as [ws E].
  exists (reverse ws).
  by rewrite <- reverse_app, <- E, reverse_involutive.
Qed.

Lemma rstrip_stripped (s : str) :
  (∀ c, last s = Some c → isspace c = false) → rstrip s = s.
Proof.
  intros H. unfold rstrip. rewrite lstrip_stripped.
  - apply reverse_involutive.
  - intros c. rewrite head_reverse. apply H.
Qed.

Lemma strip_is_stripped (s : str) : stripped (strip s).
Proof.
  unfold strip. split; [|apply rstrip_last].
  intros c Hc. apply (lstrip_head s).
  destruct (rstrip_prefix (lstrip s)) as [ws E]. rewrite E.
  destruct (rstrip (lstrip s)); [done|]. exact Hc.
Qed.

Lemma strip_stripped (s : str) : stripped s → strip s = s.
Proof.
  intros [H1 H2]. unfold strip.
  by rewrite (lstrip_stripped s H1), (rstrip_stripped s H2).
Qed.

Lemma strip_idemp (s : str) : strip (strip s) = strip s.
Proof. apply strip_stripped, strip_is_stripped. Qed.

Lemma keep_line_strip (l : str) : keep_line (strip l) = keep_line l.
Proof. unfold keep_line. by rewrite strip_idemp. Qed.

Lemma keep_line_true (l : str) :
  keep_line l = true ↔ strip l ≠ [] ∧ startswith_hash (strip l) = false.
Proof.
  unfold keep_line. destruct (strip l) as [|c s]; simpl.
  - intuition congruence.
  - destruct (c =? 35)%N; simpl; intuition congruence.
Qed.

(** X1.  Every ticker [read_tickers] returns is a line of the file with
    the white space around it removed; it is not empty, neither starts nor
    ends with white space, and does not start with [#]. *)
Theorem read_tickers_well_formed (lines : list str) :
  Forall (λ t, t ≠ [] ∧ stripped t ∧ startswith_hash t = false
               ∧ ∃ line, line ∈ lines ∧ t = strip line)
         (read_tickers lines).
Proof.
  apply Forall_forall. intros t Ht. unfold read_tickers in Ht.
  apply list_elem_of_fmap in Ht as (line & -> & Hl).
  apply list_elem_of_filter in Hl as [Hk Hl].
  apply keep_line_true in Hk as [Hne Hh].
  split; [done|]. split; [apply strip_is_stripped|]. split; [done|].
  by exists line.
Qed.

Lemma read_tickers_stripped (ts : list str) :
  Forall (λ t, keep_line t = true ∧ strip t = t) ts →
  read_tickers ts = ts.
Proof.
  unfold read_tickers. induction 1 as [|t ts [Hk Hs] _ IH]; [done|].
  rewrite filter_cons_True by done. csimpl. by rewrite Hs, IH.
Qed.

(** X2.  Reading is idempotent: the tickers read from a file, written one
    per line and read again, are the same list.  The tickers come in the
    order of their lines, repeated lines repeated, and a file read in two
    parts gives the two lists one after the other. *)
Theorem read_tickers_idempotent (lines lines' : list str) :
  read_tickers (read_tickers lines) = read_tickers lines
  ∧ read_tickers lines `sublist_of` (strip <$> lines)
  ∧ read_tickers (lines ++ lines') = read_tickers lines ++ read_tickers lines'.
Proof.
  split; [|split].
  - apply read_tickers_stripped, Forall_forall. intros t Ht.
    unfold read_tickers in Ht.
    apply list_elem_of_fmap in Ht as (line & -> & Hl).
    apply list_elem_of_filter in Hl as [Hk _].
    split; [by rewrite keep_line_strip|apply strip_idemp].
  - unfold read_tickers. apply fmap_sublist, sublist_filter.
  - unfold read_tickers. by rewrite filter_app, fmap_app.
Qed.

(** A ticker with white space around it, a comment, a blank line and a
    repeated ticker. *)
Example read_tickers_sample :
  read_tickers [lit "  7203.T  "; lit "# memo"; []; lit "AAPL"; lit "AAPL"]
  = [lit "7203.T"; lit "AAPL"; lit "AAPL"].
Proof. vm_compute. reflexivity. Qed.

(** ** fetch_prices *)

Lemma fetch_frames_Raise (data : DataFrame) (tickers : list str) (e : exn) :
  fetch_frames data tickers = Raise e →
  e = KeyError ∧ ∃ t, t ∈ tickers ∧ ¬ has_close data t.
Proof.
  induction tickers as [|t ts IH]; simpl; [done|].
  destruct (select_close (select_ticker (cols data) t)) as [c|e0|] eqn:E;
    simpl.
  - destruct (fetch_frames data ts) as [rest|e1|]; simpl; [done| |done].
    intros [= <-]. destruct (IH eq_refl) as (-> & t' & Ht' & Hno).
    split; [done|]. exists t'. split; [by right|done].
  - intros [= <-]. split; [by apply (select_close_Raise _ _ E)|].
    exists t. split; [left|]. intros [c Hc]. congruence.
  - done.
Qed.

(** X3.  [fetch_prices] returns a frame exactly when the request list is
    not empty and a [Close] column is found for every requested ticker; the
    frame is then the frames of the tickers one after the other, in request
    order.  An empty request list is a [ValueError] (nothing to
    concatenate); any other exception is the [KeyError] of a ticker for
    which no [Close] column is found. *)
Theorem fetch_prices_outcome (data : DataFrame) (tickers : list str) :
  (∀ df, fetch_prices data tickers = Ok df ↔
         tickers ≠ [] ∧ Forall (has_close data) tickers
         ∧ df = mjoin (frame_of data <$> tickers))
  ∧ (tickers = [] → fetch_prices data tickers = Raise ValueError)
  ∧ (∀ e, fetch_prices data tickers = Raise e →
          e = ValueError ∧ tickers = []
          ∨ e = KeyError ∧ ∃ t, t ∈ tickers ∧ ¬ has_close data t).
Proof.
  split; [intros df; apply fetch_prices_Ok|]. split; [by intros ->|].
  intros e. unfold fetch_prices.
  destruct (fetch_frames data tickers) as [fs|e0|] eqn:E; simpl.
  - apply fetch_frames_Ok in E as [_ ->].
    destruct tickers; simpl; [|done]. intros [= <-]. by left.
  - intros [= <-]. right. by apply fetch_frames_Raise.
  - done.
Qed.

Lemma select_close_one_level (fields : gmap str column) (c : column) (t : str) :
  fields !! Close = Some c →
  select_close (select_ticker (OneLevel fields) t)
  = match fields !! t with Some _ => Raise KeyError | None => Ok c end.
Proof.
  intros Hc. unfold select_ticker. simpl.
  destruct (fields !! t); simpl; [done|]. by rewrite Hc.
Qed.

(** X4.  A batch with one column level belongs to whoever asks: when none
    of the requested tickers is the name of a column, every one of them
    gets the whole [Close] column of the batch, so all requested tickers
    get the same prices.  A requested ticker that is the name of a column
    selects that column instead of a frame, and the run stops with
    [KeyError]. *)
Theorem one_level_batch_serves_every_ticker
    (idx : list Z) (fields : gmap str column) (c : column)
    (tickers : list str) :
  fields !! Close = Some c →
  tickers ≠ [] →
  (Forall (λ t, fields !! t = None) tickers →
   fetch_prices {| index := idx; cols := OneLevel fields |} tickers
   = Ok (mjoin (frame_rows idx c <$> tickers)))
  ∧ (¬ Forall (λ t, fields !! t = None) tickers →
     fetch_prices {| index := idx; cols := OneLevel fields |} tickers
     = Raise KeyError).
Proof.
  intros Hc Hne. split.
  - intros Hall. apply fetch_prices_Ok. split; [done|]. split.
    + eapply Forall_impl; [exact Hall|]. intros t Ht. exists c. simpl.
      by rewrite (select_close_one_level fields c t Hc), Ht.
    + f_equal. apply Forall_fmap_ext. eapply Forall_impl; [exact Hall|].
      intros t Ht. unfold frame_of, close_column. simpl.
      by rewrite (select_close_one_level fields c t Hc), Ht.
  - intros Hnot. unfold fetch_prices. rewrite fetch_frames_KeyError; [done| |].
    + intros t _. simpl. rewrite (select_close_one_level fields c t Hc).
      by destruct (fields !! t).
    + intros Hall. apply Hnot. eapply Forall_impl; [exact Hall|].
      intros t [c' Hc']. simpl in Hc'.
      rewrite (select_close_one_level fields c t Hc) in Hc'.
      by destruct (fields !! t).
Qed.

Lemma one_level_batch_serves_every_ticker_witness :
  fetch_prices batch_gap [tX; tY]
  = Ok (frame_rows (days 25) closes_gap tX
          ++ frame_rows (days 25) closes_gap tY)
  ∧ fetch_prices batch_gap [tX; Close] = Raise KeyError.
Proof.
  split.
  - destruct (one_level_batch_serves_every_ticker
                (days 25) {[ Close := closes_gap ]} closes_gap [tX; tY])
      as [Hok _]; [vm_compute; reflexivity|done|].
    unfold batch_gap. rewrite Hok; [vm_compute; reflexivity|].
    repeat constructor.
  - destruct (one_level_batch_serves_every_ticker
                (days 25) {[ Close := closes_gap ]} closes_gap [tX; Close])
      as [_ Herr]; [vm_compute; reflexivity|done|].
    apply Herr. intros Hall. apply Forall_cons in Hall as [_ Hall].
    apply Forall_cons in Hall as [Hcl _]. vm_compute in Hcl. discriminate Hcl.
Defined.

Lemma elem_of_frame_of (data : DataFrame) (t : str) (r : PriceRow) :
  r ∈ frame_of data t ↔
  ticker r = t
  ∧ ∃ i, index data !! i = Some (Date r)
         ∧ close_column data t !! i = Some (close r).
Proof.
  unfold frame_of, frame_rows. rewrite list_elem_of_lookup. split.
  - intros (i & (d & x & -> & Hd & Hx)%lookup_zip_with_Some). simpl. eauto.
  - intros (<- & i & Hd & Hx). exists i. apply lookup_zip_with_Some.
    exists (Date r), (close r). by destruct r.
Qed.

(** X5.  The rows of the normalized frame are the dates of the batch index
    paired, position by position, with the cells of the [Close] column found
    for a requested ticker: no row carries a ticker that was not requested,
    a date that is not in the index, or a close from another position. *)
Theorem fetch_prices_rows_aligned
    (data : DataFrame) (tickers : list str) (df : list PriceRow) :
  fetch_prices data tickers = Ok df →
  ∀ r, r ∈ df ↔
       ticker r ∈ tickers
       ∧ ∃ i, index data !! i = Some (Date r)
              ∧ close_column data (ticker r) !! i = Some (close r).
Proof.
  intros (_ & _ & ->)%fetch_prices_Ok r. rewrite list_elem_of_join. split.
  - intros (l & Hr & (t & -> & Ht)%list_elem_of_fmap).
    apply elem_of_frame_of in Hr as (<- & Hi). done.
  - intros (Ht & Hi). exists (frame_of data (ticker r)). split.
    + by apply elem_of_frame_of.
    + by apply list_elem_of_fmap_2.
Qed.

Lemma fetch_prices_rows_aligned_witness :
  row_drop ∈ df_drop
  ↔ ticker row_drop ∈ [tX]
    ∧ ∃ i, index batch_drop !! i = Some (Date row_drop)
           ∧ close_column batch_drop (ticker row_drop) !! i
             = Some (close row_drop).
Proof.
  apply (fetch_prices_rows_aligned batch_drop [tX] df_drop).
  vm_compute. reflexivity.
Defined.

(** X6.  In a batch with two column levels, the rows of a ticker that is
    requested once are the index paired with the ticker's own [Close]
    column, in index order: nothing of another instrument is mixed in. *)
Theorem two_level_group_is_own_column
    (idx : list Z) (groups : gmap str (gmap str column))
    (tickers : list str) (df : list PriceRow)
    (t : str) (sub : gmap str column) (c : column) :
  fetch_prices {| index := idx; cols := TwoLevel groups |} tickers = Ok df →
  groups !! t = Some sub →
  sub !! Close = Some c →
  filter (λ t', t' = t) tickers = [t] →
  group df t = frame_rows idx c t
  ∧ (length idx = length c →
     Date <$> group df t = idx ∧ close <$> group df t = c).
Proof.
  intros (_ & _ & ->)%fetch_prices_Ok Ht Hc Honce.
  rewrite group_fetch, Honce. csimpl. rewrite app_nil_r.
  assert (frame_of {| index := idx; cols := TwoLevel groups |} t
          = frame_rows idx c t) as ->.
  { unfold frame_of, close_column, select_ticker. simpl.
    rewrite Ht. simpl. by rewrite Hc. }
  split; [done|]. intros Hlen. unfold frame_rows. split.
  - rewrite fmap_zip_with_l; [done|done|lia].
  - rewrite fmap_zip_with_r; [done|done|lia].
Qed.

Lemma two_level_group_is_own_column_witness :
  group df_three tY = frame_rows (days 25) (replicate 25 (Some 100%Q)) tY
  ∧ close <$> group df_three tY = replicate 25 (Some 100%Q).
Proof.
  assert (Hdf : fetch_prices batch_three [tX; tY; tW] = Ok df_three)
    by (vm_compute; reflexivity).
  destruct (two_level_group_is_own_column
              (days 25)
              {[ tX := {[ Close := closes_drop ]};
                 tY := {[ Close := replicate 25 (Some 100%Q) ]};
                 tW := {[ Close := closes_drop ]} ]}
              [tX; tY; tW] df_three tY
              {[ Close := replicate 25 (Some 100%Q) ]}
              (replicate 25 (Some 100%Q)) Hdf)
    as [Hg Hcols]; [vm_compute; reflexivity..|].
  split; [exact Hg|]. apply Hcols. reflexivity.
Defined.

(** ** compute_sma25_signals *)

Lemma unique_sorted_strict (ks : list str) :
  StronglySorted str_lt (unique_sorted ks).
Proof.
  assert (NoDup (unique_sorted ks)) as Hnd.
  { unfold unique_sorted. rewrite (merge_sort_Permutation str_le).
    apply NoDup_remove_dups. }
  pose proof (StronglySorted_merge_sort str_le (remove_dups ks)) as Hs.
  fold (unique_sorted ks) in Hs.
  induction Hs as [|a l Hl IH Ha]; [constructor|].
  apply NoDup_cons in Hnd as [Hnot Hnd]. constructor; [auto|].
  rewrite Forall_forall in Ha |- *. intros x Hx.
  destruct (proj1 (str_le_iff a x) (Ha x Hx)) as [->|?]; done.
Qed.

Lemma unique_sorted_nil (ks : list str) : unique_sorted ks = [] ↔ ks = [].
Proof.
  split.
  - intros H. destruct ks as [|k ks]; [done|].
    assert (k ∈ unique_sorted (k :: ks)) as Hk
      by (apply elem_of_unique_sorted; left).
    rewrite H in Hk. by apply elem_of_nil in Hk.
  - by intros ->.
Qed.

Lemma records_ticker (df : list PriceRow) (t : str) (r : SignalRow) :
  r ∈ records df t → ticker (row r) = t.
Proof.
  intros [i Hi]%list_elem_of_lookup.
  apply records_lookup in Hi as (p & Hp & ->). simpl.
  by apply list_elem_of_lookup_2, elem_of_series in Hp as [_ ?].
Qed.

Lemma records_rows (df : list PriceRow) (t : str) :
  row <$> records df t = series df t.
Proof.
  unfold records, compute_group. fold (series df t).
  apply fmap_zip_with_l; [done|].
  unfold rolling_mean. by rewrite length_imap, length_fmap.
Qed.

Lemma records_absent (df : list PriceRow) (t : str) :
  t ∉ ticker <$> df → records df t = [].
Proof.
  intros Hnot. apply length_zero_iff_nil.
  rewrite length_records, (series_perm df t).
  apply length_zero_iff_nil. unfold group.
  induction df as [|p df IH]; [done|]. rewrite fmap_cons in Hnot.
  apply not_elem_of_cons in Hnot as [Hne Hnot].
  rewrite filter_cons_False by congruence. by apply IH.
Qed.

Lemma filter_all {A} (P : A → Prop) `{∀ x, Decision (P x)} (l : list A) :
  Forall P l → filter P l = l.
Proof.
  induction 1 as [|x l Hx _ IH]; [done|].
  by rewrite filter_cons_True, IH.
Qed.

(** X7.  [compute_sma25_signals] fails exactly on a frame without rows,
    with the [ValueError] of a concatenation of nothing; a frame with at
    least one row always gives a result frame. *)
Theorem compute_fails_only_on_empty_frame (df : list PriceRow) :
  (compute_sma25_signals df = Raise ValueError ↔ df = [])
  ∧ (df ≠ [] → ∃ res, compute_sma25_signals df = Ok res).
Proof.
  unfold compute_sma25_signals, groupby_ticker.
  rewrite <- list_fmap_compose.
  destruct (unique_sorted (ticker <$> df)) as [|k ks] eqn:E.
  - apply unique_sorted_nil, fmap_nil_inv in E as ->. simpl.
    split; [done|]. by intros [].
  - simpl. split; [|eauto]. split; [done|]. intros ->. done.
Qed.

Lemma filter_in_cons (df : list PriceRow) (k : str) (ks : list str) :
  k ∉ ks →
  filter (λ r, ticker r ∈ k :: ks) df
  ≡ₚ filter (λ r, ticker r = k) df ++ filter (λ r, ticker r ∈ ks) df.
Proof.
  intros Hk. induction df as [|p df IH]; [done|].
  rewrite !filter_cons.
  destruct (decide (ticker p = k)) as [E|Hne].
  - rewrite decide_True by (rewrite E; left).
    rewrite decide_False by (by rewrite E). simpl. by rewrite IH.
  - destruct (decide (ticker p ∈ ks)) as [Hin|Hnin].
    + rewrite decide_True by (by right).
      rewrite IH. apply Permutation_middle.
    + rewrite decide_False; [done|].
      intros [?|?]%elem_of_cons; done.
Qed.

Lemma groups_partition (df : list PriceRow) (ks : list str) :
  NoDup ks →
  mjoin (group df <$> ks) ≡ₚ filter (λ r, ticker r ∈ ks) df.
Proof.
  induction 1 as [|k ks Hk Hnd IH]; csimpl.
  - induction df as [|p df IHdf]; [done|].
    rewrite filter_cons_False; [done|]. apply not_elem_of_nil.
  - rewrite filter_in_cons by done. by rewrite IH.
Qed.

(** X8.  The result frame is the input frame with three columns added:
    its rows, without the added columns, are the rows of the input, each
    one once; no row is dropped or made up. *)
Theorem compute_keeps_every_row (df : list PriceRow) (res : list SignalRow) :
  compute_sma25_signals df = Ok res →
  row <$> res ≡ₚ df ∧ length res = length df.
Proof.
  intros Hres.
  assert (row <$> res ≡ₚ df) as Hp.
  { rewrite (compute_output df res Hres).
    assert (∀ ks, row <$> mjoin (records df <$> ks)
                  ≡ₚ mjoin (group df <$> ks)) as Hks.
    { induction ks as [|k ks IH]; csimpl; [done|].
      by rewrite fmap_app, IH, records_rows, series_perm. }
    rewrite Hks, groups_partition.
    - rewrite filter_all; [done|]. apply Forall_forall. intros p Hp.
      by apply elem_of_unique_sorted, list_elem_of_fmap_2.
    - apply StronglySorted_str_lt_NoDup, unique_sorted_strict. }
  split; [done|]. by rewrite <- Hp, length_fmap.
Qed.

Lemma compute_keeps_every_row_witness :
  row <$> res_drop ≡ₚ df_drop ∧ length res_drop = length df_drop.
Proof.
  apply (compute_keeps_every_row df_drop res_drop).
  vm_compute. reflexivity.
Defined.

Lemma filter_records (df : list PriceRow) (t t' : str) :
  filter (λ r, ticker (row r) = t) (records df t')
  = if decide (t' = t) then records df t' else [].
Proof.
  pose proof (records_ticker df t') as H.
  induction (records df t') as [|r l IH].
  - by case_decide.
  - rewrite filter_cons, IH by (intros q Hq; apply H; by right).
    rewrite (H r) by left. by case_decide.
Qed.

(** X9.  Instruments do not influence one another: the rows of the result
    frame that carry ticker [t] are the rows computed from the rows of [t]
    alone, in the order of its series. *)
Theorem result_rows_of_one_instrument
    (df : list PriceRow) (res : list SignalRow) (t : str) :
  compute_sma25_signals df = Ok res →
  filter (λ r, ticker (row r) = t) res = records df t.
Proof.
  intros Hres. rewrite (compute_output df res Hres).
  pose proof (StronglySorted_str_lt_NoDup _
                (unique_sorted_strict (ticker <$> df))) as Hnd.
  destruct (decide (t ∈ unique_sorted (ticker <$> df))) as [Hin|Hnot].
  - induction Hnd as [|k ks Hk Hnd IH]; [by apply elem_of_nil in Hin|].
    csimpl. rewrite filter_app, filter_records.
    apply elem_of_cons in Hin as [->|Hin].
    + rewrite decide_True by done.
      assert (filter (λ r, ticker (row r) = k) (mjoin (records df <$> ks))
              = []) as ->; [|by rewrite app_nil_r].
      clear IH Hnd. induction ks as [|k' ks IH]; [done|]. csimpl.
      apply not_elem_of_cons in Hk as [Hne Hk].
      rewrite filter_app, filter_records, decide_False by done.
      by apply IH.
    + rewrite decide_False by (intros ->; done). by apply IH.
  - rewrite (records_absent df t)
      by (by rewrite <- elem_of_unique_sorted).
    clear Hnd.
    induction (unique_sorted (ticker <$> df)) as [|k ks IH]; [done|].
    apply not_elem_of_cons in Hnot as [Hne Hnot]. csimpl.
    rewrite filter_app, filter_records, decide_False by done.
    by apply IH.
Qed.

Lemma result_rows_of_one_instrument_witness :
  filter (λ r, ticker (row r) = tY) res_three = records df_three tY.
Proof.
  apply (result_rows_of_one_instrument df_three res_three tY).
  vm_compute. reflexivity.
Defined.

Lemma records_sorted (df : list PriceRow) (t : str) :
  StronglySorted ticker_date_le (records df t).
Proof.
  pose proof (records_ticker df t) as Ht.
  pose proof (Sorted_StronglySorted _ _ (series_sorted df t)) as Hs.
  rewrite <- records_rows in Hs.
  induction (records df t) as [|r l IH]; [constructor|].
  rewrite fmap_cons in Hs. apply StronglySorted_cons in Hs as [Hall Hs].
  constructor.
  - apply IH; [|done]. intros q Hq. apply Ht. by right.
  - rewrite Forall_fmap in Hall. rewrite Forall_forall in Hall |- *.
    intros x Hx. right. split; [|by apply Hall].
    rewrite (Ht r) by left. rewrite (Ht x); [done|by right].
Qed.

(** X10.  The result frame is ordered: tickers ascending, and the rows of
    one ticker by date, oldest first. *)
Theorem result_frame_sorted (df : list PriceRow) (res : list SignalRow) :
  compute_sma25_signals df = Ok res →
  StronglySorted ticker_date_le res.
Proof.
  intros Hres. rewrite (compute_output df res Hres).
  pose proof (unique_sorted_strict (ticker <$> df)) as Hks.
  induction Hks as [|k ks Hks IH Hk]; csimpl; [constructor|].
  apply StronglySorted_app. split; [|split; [apply records_sorted|done]].
  intros x1 x2 H1%records_ticker (l & H2 & Hl)%list_elem_of_join.
  apply list_elem_of_fmap in Hl as (k' & -> & Hk').
  apply records_ticker in H2. left. rewrite H1, H2.
  rewrite Forall_forall in Hk. by apply Hk.
Qed.

Lemma result_frame_sorted_witness : StronglySorted ticker_date_le res_three.
Proof.
  apply (result_frame_sorted df_three res_three). vm_compute. reflexivity.
Defined.

(** ** From the result frame to the report *)

Lemma hit_elem_of (res : list SignalRow) (r : SignalRow) :
  r ∈ hit res → r ∈ res ∧ signal r = true.
Proof.
  intros [Hs Hr]%list_elem_of_filter. split; [|done].
  by apply elem_of_sort_ticker_Date, tail1_elem_of.
Qed.

(** X13.  An instrument with fewer than 25 rows in the frame never gets an
    alert line, whatever its closes are. *)
Theorem short_history_never_alerts
    (df : list PriceRow) (res : list SignalRow) (t : str) :
  compute_sma25_signals df = Ok res →
  length (group df t) < 25 →
  t ∉ (λ r, ticker (row r)) <$> hit res.
Proof.
  intros Hres Hlen (r & -> & [Hr Hsig]%hit_elem_of)%list_elem_of_fmap.
  apply (output_rows df res r Hres) in Hr as (t & i & Hi).
  assert (ticker (row r) = t) as Ht
    by (eapply records_ticker, list_elem_of_lookup_2, Hi).
  rewrite Ht in Hlen.
  pose proof (lookup_lt_Some _ _ _ Hi) as Hlt.
  rewrite length_records, (series_perm df t) in Hlt.
  apply records_lookup in Hi as (p & Hp & ->).
  rewrite sma25_early in Hsig by lia.
  destruct (add_columns_undefined p) as [_ Hf]. congruence.
Qed.

Lemma short_history_never_alerts_witness :
  tY ∉ (λ r, ticker (row r)) <$> hit res_short.
Proof.
  apply (short_history_never_alerts df_short res_short tY).
  - vm_compute. reflexivity.
  - vm_compute. lia.
Defined.

Lemma Qsgn_neg (c : Q) : (c < 0)%Q → Qsgn c = Lt.
Proof.
  unfold Qlt, Qsgn. simpl. intros H. apply Z.compare_lt_iff. lia.
Qed.

(** X14.  On a frame computed by [compute_sma25_signals] the markers
    [N/A] of an alert line are never used: a row that gets a line has its
    close and its average defined and a deviation that is not NaN, so the
    line shows the three numbers. *)
Theorem alert_line_shows_numbers
    (fmt2f : float64 → str) (isoformat : Z → str)
    (df : list PriceRow) (res : list SignalRow) (r : SignalRow) :
  compute_sma25_signals df = Ok res →
  r ∈ hit res →
  ∃ m c, sma25 r = Some m ∧ close (row r) = Some c
         ∧ notnull (kairi r) = true
         ∧ alert_line fmt2f isoformat r
           = ticker (row r) ++ date_label ++ isoformat (Date (row r))
               ++ close_label ++ fmt2f (Fin c) ++ sma_label ++ fmt2f (Fin m)
               ++ kairi_label ++ fmt2f (kairi r) ++ lit "%".
Proof.
  intros Hres [Hr Hsig]%hit_elem_of.
  apply (output_rows df res r Hres) in Hr as (t & i & Hi).
  apply records_lookup in Hi as (p & Hp & ->).
  apply add_columns_signal in Hsig as (m & c & Hm & Hc & Hlt).
  exists m, c. simpl sma25. simpl row. rewrite Hm in *.
  assert (notnull (kairi (add_columns p (Some m))) = true) as Hk.
  { destruct (add_columns_kairi p c m Hc) as [Hne Heq].
    destruct (Qeq_dec m 0) as [Hz|Hnz].
    - rewrite (Heq Hz). rewrite Hz in Hlt.
      assert (c < 0)%Q as Hneg by lra.
      by rewrite (Qsgn_neg c Hneg).
    - by rewrite (Hne Hnz). }
  split; [done|]. split; [done|]. split; [done|].
  unfold alert_line. rewrite Hk. simpl sma25. simpl row. by rewrite Hc.
Qed.

Lemma alert_line_shows_numbers_witness :
  ∃ m c, sma25 rec_drop = Some m ∧ close (row rec_drop) = Some c
         ∧ notnull (kairi rec_drop) = true
         ∧ alert_line (λ _, lit "0.00") (λ _, lit "2026-01-01") rec_drop
           = ticker (row rec_drop) ++ date_label ++ lit "2026-01-01"
               ++ close_label ++ lit "0.00" ++ sma_label ++ lit "0.00"
               ++ kairi_label ++ lit "0.00" ++ lit "%".
Proof.
  assert (Hres : compute_sma25_signals df_drop = Ok res_drop)
    by (vm_compute; reflexivity).
  assert (Hhit : rec_drop ∈ hit res_drop)
    by (apply (bool_decide_unpack _); vm_compute; exact I).
  exact (alert_line_shows_numbers (λ _, lit "0.00") (λ _, lit "2026-01-01")
           df_drop res_drop rec_drop Hres Hhit).
Defined.

Lemma sort_ticker_Date_Permutation (res res' : list SignalRow) :
  res ≡ₚ res' →
  (∀ a b, a ∈ res → b ∈ res → ticker (row a) = ticker (row b) →
          Date (row a) = Date (row b) → a = b) →
  sort_values_ticker_Date res' = sort_values_ticker_Date res.
Proof.
  intros Hp Hu. apply (StronglySorted_unique_strong ticker_date_le).
  - intros a b Ha Hb.
    apply (proj1 (elem_of_sort_ticker_Date res' a)) in Ha.
    apply (proj1 (elem_of_sort_ticker_Date res b)) in Hb.
    rewrite <- Hp in Ha. intros [H1|[E1 D1]] [H2|[E2 D2]].
    + exfalso. apply (irreflexivity str_lt (ticker (row a))). by etrans.
    + rewrite E2 in H1. by apply (irreflexivity str_lt) in H1.
    + rewrite E1 in H2. by apply (irreflexivity str_lt) in H2.
    + apply Hu; [done|done|done|lia].
  - apply sorted_ticker_Date.
  - apply sorted_ticker_Date.
  - unfold sort_values_ticker_Date.
    by rewrite !(merge_sort_Permutation ticker_date_le), Hp.
Qed.

(** X15.  The report does not depend on the order of the rows of the
    frame it is given, as long as no two different rows share ticker and
    date: [format_alerts] sorts before it selects. *)
Theorem format_alerts_order_independent
    (today : str) (fmt2f : float64 → str) (isoformat : Z → str)
    (res res' : list SignalRow) :
  res ≡ₚ res' →
  (∀ a b, a ∈ res → b ∈ res → ticker (row a) = ticker (row b) →
          Date (row a) = Date (row b) → a = b) →
  format_alerts today fmt2f isoformat res'
  = format_alerts today fmt2f isoformat res.
Proof.
  intros Hp Hu. unfold format_alerts, report_lines, hit, latest.
  by rewrite (sort_ticker_Date_Permutation res res' Hp Hu).
Qed.

Lemma format_alerts_order_independent_witness :
  format_alerts [] (λ _, []) (λ _, []) (reverse res_drop)
  = format_alerts [] (λ _, []) (λ _, []) res_drop.
Proof.
  apply format_alerts_order_independent.
  - by rewrite reverse_Permutation.
  - assert (Forall (λ a, Forall (λ b,
              ticker (row a) = ticker (row b) →
              Date (row a) = Date (row b) → a = b) res_drop) res_drop) as H.
    { apply (bool_decide_unpack _). vm_compute. exact I. }
    intros a b Ha Hb. rewrite Forall_forall in H.
    specialize (H a Ha). rewrite Forall_forall in H. by apply H.
Defined.

(** ** send_slack *)

Lemma hexdigit_printable (d : N) :
  (d < 16)%N → (32 ≤ hexdigit d ∧ hexdigit d ≤ 126)%N.
Proof. unfold hexdigit. destruct (N.ltb_spec d 10); lia. Qed.

Lemma hex4_printable (n : N) :
  Forall (λ b, (32 ≤ b ∧ b ≤ 126)%N) (hex4 n).
Proof.
  unfold hex4.
  repeat (constructor; [apply hexdigit_printable, N.mod_lt; lia|]).
  constructor.
Qed.

Lemma json_escape_char_printable (c : N) :
  Forall (λ b, (32 ≤ b ∧ b ≤ 126)%N) (json_escape_char c).
Proof.
  unfold json_escape_char, u_escape.
  do 7 (match goal with
        | |- context [if (c =? ?k)%N then _ else _] =>
            destruct (c =? k)%N;
              [constructor; [lia|]; constructor; [lia|]; constructor|]
        end).
  destruct ((32 <=? c)%N && (c <=? 126)%N) eqn:E.
  - apply andb_true_iff in E as [?%N.leb_le ?%N.leb_le].
    constructor; [lia|constructor].
  - case_match.
    + constructor; [lia|]. constructor; [lia|]. apply hex4_printable.
    + apply Forall_app. split;
        (constructor; [lia|]; constructor; [lia|]; apply hex4_printable).
Qed.

Lemma json_dumps_text_printable (text : str) :
  Forall (λ b, (32 ≤ b ∧ b ≤ 126)%N) (json_dumps_text text).
Proof.
  unfold json_dumps_text. apply Forall_app. split.
  { repeat (constructor; [lia|]). constructor. }
  apply Forall_app. split.
  - unfold json_escape. induction text as [|c s IH]; csimpl; [constructor|].
    apply Forall_app. split; [apply json_escape_char_printable|done].
  - repeat (constructor; [lia|]). constructor.
Qed.

Lemma utf8_encode_ascii (s : str) :
  Forall (λ b, (b < 128)%N) s → utf8_encode s = Some s.
Proof.
  unfold utf8_encode. induction 1 as [|c s Hc _ IH]; [done|]. csimpl.
  assert (utf8_char c = Some [c]) as ->.
  { unfold utf8_char. by destruct (N.ltb_spec c 128); [|lia]. }
  csimpl. destruct (mapM utf8_char s) as [bs|]; [|done]. csimpl in *.
  by injection IH as ->.
Qed.

(** X16.  What [send_slack] posts is the JSON text itself, one byte per
    character: the payload holds printable ASCII only (a line break of the
    report travels as the two characters of its escape), so the encoding
    to UTF-8 never fails, and the outcome of the call is the outcome of
    [urlopen]. *)
Theorem send_slack_posts_ascii_json
    (urlopen : Request → option str) (webhook_url text : str) :
  Forall (λ b, (32 ≤ b ∧ b ≤ 126)%N) (json_dumps_text text)
  ∧ utf8_encode (json_dumps_text text) = Some (json_dumps_text text)
  ∧ send_slack urlopen webhook_url text
    = urlopen {| req_url := webhook_url;
                 req_data := json_dumps_text text;
                 req_content_type := lit "application/json" |}.
Proof.
  pose proof (json_dumps_text_printable text) as Hp.
  assert (utf8_encode (json_dumps_text text) = Some (json_dumps_text text))
    as He.
  { apply utf8_encode_ascii. eapply Forall_impl; [exact Hp|].
    intros b Hb. simpl in Hb. lia. }
  split; [done|]. split; [done|]. unfold send_slack. by rewrite He.
Qed.

(** The payload of a text with a quote, a line break and a kanji. *)
Example json_dumps_text_sample :
  json_dumps_text [34; 10; 26085]%N
  = [123; 34; 116; 101; 120; 116; 34; 58; 32; 34]%N
      ++ lit "\" ++ [34]%N ++ lit "\n\u65e5" ++ [34; 125]%N.
Proof. vm_compute. reflexivity. Qed.

Lemma unhexdigit_hexdigit (d : N) :
  (d < 16)%N → unhexdigit (hexdigit d) = d.
Proof.
  intros Hd. unfold unhexdigit, hexdigit.
  destruct (N.ltb_spec d 10).
  - destruct (N.ltb_spec (48 + d) 58); lia.
  - destruct (N.ltb_spec (87 + d) 58); lia.
Qed.

Lemma unhex4_hex4 (n : N) :
  (n < 65536)%N →
  unhex4 (hexdigit (n / 4096 mod 16)) (hexdigit (n / 256 mod 16))
         (hexdigit (n / 16 mod 16)) (hexdigit (n mod 16)) = n.
Proof.
  intros Hn. unfold unhex4.
  rewrite !unhexdigit_hexdigit by (apply N.mod_lt; lia).
  pose proof (N.div_mod' n 16). pose proof (N.div_mod' (n / 16) 16).
  pose proof (N.div_mod' (n / 256) 16).
  replace (n / 256)%N with (n / 16 / 16)%N in *
    by (by rewrite N.Div0.div_div).
  replace (n / 4096)%N with (n / 16 / 16 / 16)%N in *
    by (by rewrite !N.Div0.div_div).
  assert (n / 16 / 16 / 16 < 16)%N.
  { do 3 apply N.Div0.div_lt_upper_bound. lia. }
  rewrite (N.mod_small (n / 16 / 16 / 16) 16) by done. lia.
Qed.

Lemma decode_first_u (n : N) (rest : str) :
  (n < 65536)%N →
  decode_first (u_escape n ++ rest)
  = if ((55296 <=? n) && (n <? 56320))%N then
      match rest with
      | _ :: _ :: l3 :: l2 :: l1 :: l0 :: rest3 =>
          Some ((65536 + (n - 55296) * 1024
                 + (unhex4 l3 l2 l1 l0 - 56320))%N, rest3)
      | _ => None
      end
    else Some (n, rest).
Proof.
  intros Hn. unfold u_escape, hex4.
  change (decode_first _) with
    (let m := unhex4 (hexdigit (n / 4096 mod 16)) (hexdigit (n / 256 mod 16))
                     (hexdigit (n / 16 mod 16)) (hexdigit (n mod 16)) in
     if ((55296 <=? m) && (m <? 56320))%N then
       match rest with
       | _ :: _ :: l3 :: l2 :: l1 :: l0 :: rest3 =>
           Some ((65536 + (m - 55296) * 1024
                  + (unhex4 l3 l2 l1 l0 - 56320))%N, rest3)
       | _ => None
       end
     else Some (m, rest)).
  cbv zeta. by rewrite (unhex4_hex4 n Hn).
Qed.

(** The first character of an escaped string can be read back. *)
Lemma decode_first_escape (c : N) (rest : str) :
  scalar c →
  decode_first (json_escape_char c ++ rest) = Some (c, rest).
Proof.
  intros Hc. unfold json_escape_char.
  do 7 (match goal with
        | |- context [if (c =? ?k)%N then _ else _] =>
            destruct (N.eqb_spec c k) as [->|?]; [reflexivity|]
        end).
  destruct ((32 <=? c)%N && (c <=? 126)%N) eqn:E.
  { change (decode_first ([c] ++ rest))
      with (if (c =? 92)%N then
              match rest with
              | [] => None
              | x :: rest1 =>
                  decode_first (92%N :: x :: rest1)
              end
            else Some (c, rest)).
    by destruct (N.eqb_spec c 92). }
  destruct (N.ltb_spec c 65536) as [Hlt|Hge].
  - rewrite decode_first_u by done.
    destruct (N.leb_spec 55296 c), (N.ltb_spec c 56320); simpl; try done.
    unfold scalar in Hc. lia.
  - unfold scalar in Hc.
    assert ((c - 65536) / 1024 < 1024)%N
      by (apply N.Div0.div_lt_upper_bound; lia).
    assert (c mod 1024 < 1024)%N by (apply N.mod_lt; lia).
    assert (65536 + (c - 65536) / 1024 * 1024 + c mod 1024 = c)%N as Hc'.
    { assert (c mod 1024 = (c - 65536) mod 1024)%N as ->.
      { replace c with (c - 65536 + 64 * 1024)%N at 1 by lia.
        by rewrite N.Div0.mod_add. }
      pose proof (N.div_mod' (c - 65536) 1024). lia. }
    revert Hc'. generalize dependent ((c - 65536) / 1024)%N.
    generalize dependent (c mod 1024)%N. intros r Hr q Hq Hc'.
    rewrite <- app_assoc, decode_first_u by lia.
    destruct (N.leb_spec 55296 (55296 + q)); [|lia].
    destruct (N.ltb_spec (55296 + q) 56320); [|lia].
    simpl andb. cbv iota. unfold u_escape at 1, hex4. simpl app.
    cbv beta iota. rewrite unhex4_hex4 by lia. f_equal. f_equal. lia.
Qed.

Lemma json_escape_inj (t1 t2 : str) :
  Forall scalar t1 → Forall scalar t2 →
  json_escape t1 ++ [34; 125]%N = json_escape t2 ++ [34; 125]%N →
  t1 = t2.
Proof.
  intros H1. revert t2.
  induction H1 as [|c1 t1 Hc1 _ IH]; intros t2 H2 E.
  - destruct H2 as [|c2 t2 Hc2 _]; [done|]. exfalso.
    unfold json_escape in E. csimpl in E. rewrite <- app_assoc in E.
    apply (f_equal decode_first) in E.
    rewrite decode_first_escape in E by done.
    injection E as _ E. apply (f_equal length) in E.
    rewrite length_app in E. simpl in E. lia.
  - destruct H2 as [|c2 t2 Hc2 H2].
    + exfalso. unfold json_escape in E. csimpl in E.
      rewrite <- app_assoc in E. apply (f_equal decode_first) in E.
      rewrite decode_first_escape in E by done.
      injection E as _ E. apply (f_equal length) in E.
      rewrite length_app in E. simpl in E. lia.
    + unfold json_escape in E. csimpl in E. rewrite <- !app_assoc in E.
      apply (f_equal decode_first) in E.
      rewrite !decode_first_escape in E by done.
      injection E as -> E. f_equal. by apply IH.
Qed.

(** X17.  Two different reports never give the same payload, provided
    their characters are Unicode scalar values (no surrogates), as the
    characters of a decoded file and of the fixed labels are. *)
Theorem different_texts_different_payloads (t1 t2 : str) :
  Forall scalar t1 → Forall scalar t2 →
  t1 ≠ t2 →
  json_dumps_text t1 ≠ json_dumps_text t2.
Proof.
  intros H1 H2 Hne E. apply Hne. unfold json_dumps_text in E.
  apply app_inv_head in E. by apply json_escape_inj.
Qed.

Lemma different_texts_different_payloads_witness :
  json_dumps_text (no_hit_line ++ [10%N])
  ≠ json_dumps_text (no_hit_line ++ lit "\n").
Proof.
  apply different_texts_different_payloads.
  - unfold no_hit_line. simpl.
    repeat (constructor; [unfold scalar; lia|]). constructor.
  - assert (no_hit_line ++ lit "\n"
            = [35442; 24403; 12394; 12375; 92; 110]%N) as ->
      by (vm_compute; reflexivity).
    repeat (constructor; [unfold scalar; lia|]). constructor.
  - discriminate.
Defined.

(** With surrogates the provision fails: a pair of surrogates is written
    like the character above the basic plane that they encode. *)
Example surrogate_pair_collides :
  json_dumps_text [55357; 56832]%N = json_dumps_text [128512]%N.
Proof. vm_compute. reflexivity. Qed.

(** ** send_email *)

Lemma run_smtp_done (smtp : smtp_cmd → option str) (cmds : list smtp_cmd) :
  ∃ rest, cmds = (run_smtp smtp cmds).1 ++ rest.
Proof.
  induction cmds as [|c cs [rest IH]]; simpl; [by exists []|].
  destruct (smtp c).
  - by exists cs.
  - destruct (run_smtp smtp cs) as [done err]. simpl in *.
    exists rest. by rewrite <- IH.
Qed.

Lemma run_smtp_success (smtp : smtp_cmd → option str) (cmds : list smtp_cmd) :
  (run_smtp smtp cmds).2 = None ↔ Forall (λ c, smtp c = None) cmds.
Proof.
  induction cmds as [|c cs IH]; simpl.
  - split; [constructor|done].
  - rewrite Forall_cons. destruct (smtp c) eqn:E.
    + simpl. split; [done|]. by intros [? _].
    + destruct (run_smtp smtp cs) as [done err]. simpl in *.
      rewrite IH. tauto.
Qed.

Lemma run_smtp_all (smtp : smtp_cmd → option str) (cmds : list smtp_cmd) :
  Forall (λ c, smtp c = None) cmds → (run_smtp smtp cmds).1 = cmds.
Proof.
  induction 1 as [|c cs Hc _ IH]; simpl; [done|]. rewrite Hc.
  destruct (run_smtp smtp cs) as [done err]. simpl in *. by rewrite IH.
Qed.

Lemma login_cmd_elem (username password : option str) (c : smtp_cmd) :
  c ∈ login_cmd username password →
  ∃ u p, c = Login u p ∧ username = Some u ∧ password = Some p
         ∧ u ≠ [] ∧ p ≠ [].
Proof.
  unfold login_cmd. destruct username as [u|], password as [p|];
    try by intros ?%elem_of_nil.
  destruct u as [|a u], p as [|b p]; simpl; try by intros ?%elem_of_nil.
  intros ->%list_elem_of_singleton. by exists (a :: u), (b :: p).
Qed.

(** The statements of the [try] block. *)
Lemma try_block_elem (from_addr to_addr : str) (msg : Message)
    (username password : option str) (use_tls : bool) (c : smtp_cmd) :
  c ∈ (if use_tls then [StartTLS] else [])
        ++ login_cmd username password ++ [SendMailTo from_addr [to_addr] msg] →
  c = StartTLS ∧ use_tls = true
  ∨ c ∈ login_cmd username password
  ∨ c = SendMailTo from_addr [to_addr] msg.
Proof.
  rewrite !elem_of_app, list_elem_of_singleton. intros [H|[H|H]]; auto.
  destruct use_tls; [|by apply elem_of_nil in H].
  apply list_elem_of_singleton in H. auto.
Qed.

(** X18.  Once the connection is open the session is always closed: the
    calls made are the connection, some of the statements of the [try]
    block, and [quit] as the last call and nowhere else, whether a call
    raised or not.  When the connection itself fails nothing else is
    called, [quit] included. *)
Theorem smtp_session_always_quits
    (smtp : smtp_cmd → option str) (smtp_host : str) (smtp_port : Z)
    (from_addr to_addr subject body : str)
    (username password : option str) (use_tls : bool) :
  (∀ e, smtp (Connect smtp_host smtp_port) = Some e →
        send_email smtp smtp_host smtp_port from_addr to_addr subject body
                   username password use_tls
        = ([Connect smtp_host smtp_port], Some e))
  ∧ (smtp (Connect smtp_host smtp_port) = None →
     ∃ done,
       (send_email smtp smtp_host smtp_port from_addr to_addr subject body
                   username password use_tls).1
       = Connect smtp_host smtp_port :: done ++ [Quit]
       ∧ (Quit ∉ done)
       ∧ ∀ h p, Connect h p ∉ done).
Proof.
  unfold send_email. split.
  - by intros e ->.
  - intros ->.
    set (block := (if use_tls then [StartTLS] else [])
                    ++ login_cmd username password ++ [_]).
    destruct (run_smtp_done smtp block) as [rest Hrest].
    destruct (run_smtp smtp block) as [done err]. simpl in *.
    exists done. split; [done|].
    assert (∀ c, c ∈ done → c ≠ Quit ∧ ∀ h p, c ≠ Connect h p) as Hc.
    { intros c Hc.
      assert (c ∈ block) as Hin by (rewrite Hrest, elem_of_app; auto).
      apply try_block_elem in Hin as [[-> _]|[Hl| ->]]; [done| |done].
      by apply login_cmd_elem in Hl as (u & p & -> & _). }
    split.
    + intros H. by destruct (Hc _ H) as [? _].
    + intros h p H. destruct (Hc _ H) as [_ Hn]. by apply (Hn h p).
Qed.

(** X19.  [send_email] returns without an exception exactly when the
    server accepts every call of the full session: the connection,
    STARTTLS when asked for, the login when a user name and a password are
    given, the mail and the quit.  The calls made are then that session;
    the mail goes to the one recipient, with the subject and the body
    passed in. *)
Theorem smtp_session_succeeds_iff
    (smtp : smtp_cmd → option str) (smtp_host : str) (smtp_port : Z)
    (from_addr to_addr subject body : str)
    (username password : option str) (use_tls : bool) :
  (send_email smtp smtp_host smtp_port from_addr to_addr subject body
              username password use_tls).2 = None
  ↔ send_email smtp smtp_host smtp_port from_addr to_addr subject body
               username password use_tls
    = (Connect smtp_host smtp_port
         :: (if use_tls then [StartTLS] else [])
         ++ login_cmd username password
         ++ [SendMailTo from_addr [to_addr]
               {| msg_subject := subject; msg_from := from_addr;
                  msg_to := to_addr; msg_body := body |};
             Quit],
       None)
    ∧ Forall (λ c, smtp c = None)
        (Connect smtp_host smtp_port
           :: (if use_tls then [StartTLS] else [])
           ++ login_cmd username password
           ++ [SendMailTo from_addr [to_addr]
                 {| msg_subject := subject; msg_from := from_addr;
                    msg_to := to_addr; msg_body := body |};
               Quit]).
Proof.
  unfold send_email.
  set (msg := {| msg_subject := subject; msg_from := from_addr;
                 msg_to := to_addr; msg_body := body |}).
  set (block := (if use_tls then [StartTLS] else [])
                  ++ login_cmd username password
                  ++ [SendMailTo from_addr [to_addr] msg]).
  assert ((if use_tls then [StartTLS] else [])
            ++ login_cmd username password
            ++ [SendMailTo from_addr [to_addr] msg; Quit]
          = block ++ [Quit]) as ->.
  { unfold block. by rewrite <- !app_assoc. }
  rewrite Forall_cons, Forall_app, Forall_singleton.
  destruct (smtp (Connect smtp_host smtp_port)) eqn:Ec.
  { simpl. split; [done|]. by intros [_ [? _]]. }
  pose proof (run_smtp_success smtp block) as Hs.
  pose proof (run_smtp_all smtp block) as Ha.
  destruct (run_smtp smtp block) as [done err]. simpl in *.
  destruct (smtp Quit) eqn:Eq.
  - split; [done|]. by intros [_ (_ & _ & ?)].
  - split.
    + intros ->. pose proof (proj1 Hs eq_refl) as Hall.
      by rewrite (Ha Hall).
    + by intros [[= _ ->] _].
Qed.

(** X20.  With TLS asked for, as [main] does, the credentials are sent
    only over the secured connection: when STARTTLS fails the session is
    closed at once, without login and without mail, and a login that is
    made uses the user name and the password given, both non-empty, after
    a STARTTLS that succeeded. *)
Theorem credentials_only_after_tls
    (smtp : smtp_cmd → option str) (smtp_host : str) (smtp_port : Z)
    (from_addr to_addr subject body : str)
    (username password : option str) :
  (∀ e, smtp (Connect smtp_host smtp_port) = None →
        smtp StartTLS = Some e →
        (send_email smtp smtp_host smtp_port from_addr to_addr subject body
                    username password true).1
        = [Connect smtp_host smtp_port; StartTLS; Quit])
  ∧ (∀ u p,
       Login u p ∈ (send_email smtp smtp_host smtp_port from_addr to_addr
                               subject body username password true).1 →
       username = Some u ∧ password = Some p ∧ u ≠ [] ∧ p ≠ []
       ∧ smtp (Connect smtp_host smtp_port) = None
       ∧ smtp StartTLS = None).
Proof.
  unfold send_email. split.
  - intros e -> He. simpl. by rewrite He.
  - intros u p. destruct (smtp (Connect smtp_host smtp_port)) eqn:Ec.
    { simpl. by intros [=]%list_elem_of_singleton. }
    simpl. destruct (smtp StartTLS) eqn:Et.
    { simpl. rewrite !elem_of_cons, elem_of_nil. intuition discriminate. }
    set (block := login_cmd username password ++ [_]).
    destruct (run_smtp_done smtp block) as [rest Hrest].
    destruct (run_smtp smtp block) as [done err]. simpl in *.
    rewrite !elem_of_cons, elem_of_app, list_elem_of_singleton.
    intros [?|[?|[Hin|?]]]; try discriminate.
    assert (Login u p ∈ block) as Hb by (rewrite Hrest, elem_of_app; auto).
    unfold block in Hb.
    apply elem_of_app in Hb as [Hl|?%list_elem_of_singleton]; [|done].
    apply login_cmd_elem in Hl as (u' & p' & [= -> ->] & -> & -> & ? & ?).
    done.
Qed.

(** The session of [main] with a server that takes everything, and with
    one that refuses STARTTLS. *)
Example main_send_email_sessions :
  main_send_email smtp_ok full_args no_hit_line
  = ([Connect (lit "smtp.example.org") 587; StartTLS;
      Login (lit "user") (lit "secret");
      SendMailTo (lit "from@example.org") [lit "to@example.org"]
        {| msg_subject := mail_subject; msg_from := lit "from@example.org";
           msg_to := lit "to@example.org"; msg_body := no_hit_line |};
      Quit], None)
  ∧ main_send_email smtp_no_tls full_args no_hit_line
    = ([Connect (lit "smtp.example.org") 587; StartTLS; Quit],
       Some (lit "STARTTLS not supported")).
Proof. split; vm_compute; reflexivity. Qed.

(** ** main: the notifications *)

Lemma notify_slack_elem
    (send_slack : str → str → option str) (args : Args) (text : str)
    (ev : event) :
  ev ∈ notify_slack send_slack args text →
  (∃ url, slack_webhook args = Some url ∧ url ≠ [])
  ∧ (∀ url text', ev = SlackPost url text' →
       slack_webhook args = Some url ∧ text' = text).
Proof.
  unfold notify_slack. destruct (slack_webhook args) as [url|];
    [|by intros ?%elem_of_nil].
  destruct url as [|a url]; simpl; [by intros ?%elem_of_nil|].
  intros Hin. split; [by exists (a :: url)|].
  intros url' text' ->. destruct (send_slack (a :: url) text);
    rewrite !elem_of_cons, elem_of_nil in Hin;
    destruct Hin as [[= -> ->]|[?|[]]]; done.
Qed.

Lemma notify_email_elem
    (send_email : Args → str → option str) (args : Args) (text : str)
    (ev : event) :
  ev ∈ notify_email send_email args text →
  (∃ to from host, email_to args = Some to ∧ email_from args = Some from
                   ∧ smtp_host args = Some host
                   ∧ to ≠ [] ∧ from ≠ [] ∧ host ≠ [])
  ∧ (∀ host port from to body, ev = SendMail host port from to body →
       smtp_host args = Some host ∧ port = smtp_port args
       ∧ email_from args = Some from ∧ email_to args = Some to
       ∧ body = text).
Proof.
  unfold notify_email.
  destruct (email_to args) as [to|]; [|by intros ?%elem_of_nil].
  destruct (email_from args) as [from|]; [|by intros ?%elem_of_nil].
  destruct (smtp_host args) as [host|]; [|by intros ?%elem_of_nil].
  destruct to as [|a to]; simpl; [by intros ?%elem_of_nil|].
  destruct from as [|b from]; simpl; [by intros ?%elem_of_nil|].
  destruct host as [|c host]; simpl; [by intros ?%elem_of_nil|].
  intros Hin. split; [by exists (a :: to), (b :: from), (c :: host)|].
  intros host' port from' to' body ->. destruct (send_email args text);
    rewrite !elem_of_cons, elem_of_nil in Hin;
    destruct Hin as [[= -> -> -> -> ->]|[?|[]]]; done.
Qed.

(** X21.  Once the report is computed the run succeeds, whatever the
    transports do: the download comes first, then the report on standard
    output, then the notifications, and the exit status is 0 also when the
    Slack post or the mail raised.  A failed Slack post does not keep the
    mail from being sent, and both carry the text that was printed. *)
Theorem delivery_failures_are_not_fatal
    (today : str) (fmt2f : float64 → str) (isoformat : Z → str)
    (yf_download : list str → DataFrame)
    (send_slack : str → str → option str)
    (send_email : Args → str → option str)
    (args : Args) (lines : list str) (res : list SignalRow) :
  read_tickers lines ≠ [] →
  fetch_prices (yf_download (read_tickers lines)) (read_tickers lines)
    ≫= compute_sma25_signals = Ok res →
  ∃ r rest,
    main today fmt2f isoformat yf_download send_slack send_email args lines
    = Some r
    ∧ exit_status r = 0%Z
    ∧ events r
      = Download (read_tickers lines)
          :: Stdout (format_alerts today fmt2f isoformat res) :: rest
    ∧ (∀ url, slack_webhook args = Some url → url ≠ [] →
         SlackPost url (format_alerts today fmt2f isoformat res) ∈ rest)
    ∧ (∀ to from host,
         email_to args = Some to → email_from args = Some from →
         smtp_host args = Some host →
         to ≠ [] → from ≠ [] → host ≠ [] →
         SendMail host (smtp_port args) from to
                  (format_alerts today fmt2f isoformat res) ∈ rest).
Proof.
  intros Hne Hres. unfold main.
  destruct (read_tickers lines) as [|t ts] eqn:E; [done|].
  rewrite Hres. eexists _, _. split; [done|]. split; [done|].
  split; [done|]. split.
  - intros url Hu Hn. apply elem_of_app. left. unfold notify_slack.
    rewrite Hu. destruct url; [done|]. simpl. left.
  - intros to from host Ht Hf Hh Hnt Hnf Hnh. apply elem_of_app. right.
    unfold notify_email. rewrite Ht, Hf, Hh.
    destruct to, from, host; try done. simpl. left.
Qed.

Lemma delivery_failures_are_not_fatal_witness :
  ∃ r rest,
    failing_main batch_drop [lit "X"] = Some r
    ∧ exit_status r = 0%Z
    ∧ events r
      = Download [tX]
          :: Stdout (format_alerts [] (λ _, []) (λ _, []) res_drop) :: rest
    ∧ StderrSlackError (lit "HTTP Error 404") ∈ rest
    ∧ StderrMailError (lit "Connection refused") ∈ rest.
Proof.
  destruct (delivery_failures_are_not_fatal
              [] (λ _, []) (λ _, []) (λ _, batch_drop)
              (λ _ _, Some (lit "HTTP Error 404"))
              (λ _ _, Some (lit "Connection refused"))
              full_args [lit "X"] res_drop)
    as (r & rest & Hmain & Hexit & Hev & _).
  - vm_compute. discriminate.
  - vm_compute. reflexivity.
  - exists r, rest. split; [exact Hmain|]. split; [exact Hexit|].
    split; [exact Hev|].
    assert (failing_main batch_drop [lit "X"]
            = Some {| events :=
                        Download [tX]
                          :: Stdout (format_alerts [] (λ _, []) (λ _, [])
                                       res_drop)
                          :: notify_slack (λ _ _, Some (lit "HTTP Error 404"))
                               full_args
                               (format_alerts [] (λ _, []) (λ _, []) res_drop)
                          ++ notify_email
                               (λ _ _, Some (lit "Connection refused"))
                               full_args
                               (format_alerts [] (λ _, []) (λ _, []) res_drop);
                      exit_status := 0 |}) as Hrun
      by (vm_compute; reflexivity).
    unfold failing_main in Hrun. rewrite Hmain in Hrun.
    injection Hrun as ->. simpl in Hev. injection Hev as <-.
    split; apply (bool_decide_unpack _); vm_compute; exact I.
Defined.

(** X22.  A channel is used only when it is asked for: a Slack post is
    made only with a non-empty webhook URL, a mail is sent only when
    recipient, sender and host are all given and non-empty; a post and a
    mail go to the URL, host, port and addresses of the command line and
    carry the report. *)
Theorem channels_only_when_asked_for
    (today : str) (fmt2f : float64 → str) (isoformat : Z → str)
    (yf_download : list str → DataFrame)
    (send_slack : str → str → option str)
    (send_email : Args → str → option str)
    (args : Args) (lines : list str) (r : run) :
  main today fmt2f isoformat yf_download send_slack send_email args lines
  = Some r →
  (∀ url text, SlackPost url text ∈ events r →
     slack_webhook args = Some url ∧ url ≠ [] ∧ Stdout text ∈ events r)
  ∧ (∀ host port from to body,
       SendMail host port from to body ∈ events r →
       smtp_host args = Some host ∧ host ≠ [] ∧ port = smtp_port args
       ∧ email_from args = Some from ∧ from ≠ []
       ∧ email_to args = Some to ∧ to ≠ []
       ∧ Stdout body ∈ events r).
Proof.
  unfold main. destruct (read_tickers lines) as [|t ts].
  { intros [= <-]. simpl. split; intros *;
      rewrite elem_of_cons, elem_of_nil; intuition discriminate. }
  destruct (_ ≫= _) as [res| |]; [| |done].
  - intros [= <-]. simpl. split.
    + intros url text. rewrite !elem_of_cons, elem_of_app.
      intros [?|[?|[Hin|Hin]]]; try discriminate.
      * destruct (notify_slack_elem _ _ _ _ Hin) as [(u & Hu & Hn) Heq].
        destruct (Heq url text eq_refl) as [Hurl ->].
        rewrite Hurl in Hu. injection Hu as <-.
        split; [done|]. split; [done|]. right. by left.
      * destruct (notify_email_elem _ _ _ _ Hin) as [_ Heq].
        unfold notify_email in Hin. repeat case_match;
          rewrite ?elem_of_cons, ?elem_of_nil in Hin;
          intuition discriminate.
    + intros host port from to body. rewrite !elem_of_cons, elem_of_app.
      intros [?|[?|[Hin|Hin]]]; try discriminate.
      * unfold notify_slack in Hin. repeat case_match;
          rewrite ?elem_of_cons, ?elem_of_nil in Hin;
          intuition discriminate.
      * destruct (notify_email_elem _ _ _ _ Hin)
          as [(t' & f' & h' & Ht & Hf & Hh & Hnt & Hnf & Hnh) Heq].
        destruct (Heq host port from to body eq_refl)
          as (Hh' & -> & Hf' & Ht' & ->).
        rewrite Hh' in Hh. rewrite Hf' in Hf. rewrite Ht' in Ht.
        injection Hh as <-. injection Hf as <-. injection Ht as <-.
        repeat (split; [done|]). right. by left.
  - intros [= <-]. simpl. split; intros *;
      rewrite !elem_of_cons, elem_of_nil; intuition discriminate.
Qed.

Lemma channels_only_when_asked_for_witness :
  (∀ url text, SlackPost url text ∈ events run_failing →
     slack_webhook full_args = Some url ∧ url ≠ []
     ∧ Stdout text ∈ events run_failing)
  ∧ (∀ host port from to body,
       SendMail host port from to body ∈ events run_failing →
       smtp_host full_args = Some host ∧ host ≠ []
       ∧ port = smtp_port full_args
       ∧ email_from full_args = Some from ∧ from ≠ []
       ∧ email_to full_args = Some to ∧ to ≠ []
       ∧ Stdout body ∈ events run_failing).
Proof.
  apply (channels_only_when_asked_for
           [] (λ _, []) (λ _, []) (λ _, batch_drop)
           (λ _ _, Some (lit "HTTP Error 404"))
           (λ _ _, Some (lit "Connection refused"))
           full_args [lit "X"] run_failing).
  vm_compute. reflexivity.
Defined.

Lemma fetch_empty_index (data : DataFrame) (tickers : list str) :
  index data = [] → mjoin (frame_of data <$> tickers) = [].
Proof.
  intros Hidx. induction tickers as [|t ts IH]; [done|]. csimpl.
  rewrite IH. unfold frame_of, frame_rows. by rewrite Hidx.
Qed.

(** X23.  A batch without any day is fatal: when the downloaded frame has
    an empty index (and a [Close] column for every requested ticker), the
    normalized frame has no rows, [compute_sma25_signals] raises
    [ValueError], and the run ends with a traceback and status 1, without a
    report and without notifications. *)
Theorem empty_history_is_fatal
    (today : str) (fmt2f : float64 → str) (isoformat : Z → str)
    (yf_download : list str → DataFrame)
    (send_slack : str → str → option str)
    (send_email : Args → str → option str)
    (args : Args) (lines : list str) :
  read_tickers lines ≠ [] →
  index (yf_download (read_tickers lines)) = [] →
  Forall (has_close (yf_download (read_tickers lines))) (read_tickers lines) →
  fetch_prices (yf_download (read_tickers lines)) (read_tickers lines) = Ok []
  ∧ main today fmt2f isoformat yf_download send_slack send_email args lines
    = Some {| events := [Download (read_tickers lines); Traceback ValueError];
              exit_status := 1 |}.
Proof.
  intros Hne Hidx Hall.
  assert (fetch_prices (yf_download (read_tickers lines)) (read_tickers lines)
          = Ok []) as Hf.
  { apply fetch_prices_Ok. split; [done|]. split; [done|].
    by rewrite fetch_empty_index. }
  split; [done|]. unfold main.
  destruct (read_tickers lines) as [|t ts] eqn:E; [done|].
  by rewrite Hf.
Qed.

Lemma empty_history_is_fatal_witness :
  fetch_prices batch_empty [tX] = Ok []
  ∧ failing_main batch_empty [lit "X"]
    = Some {| events := [Download [tX]; Traceback ValueError];
              exit_status := 1 |}.
Proof.
  apply (empty_history_is_fatal
           [] (λ _, []) (λ _, []) (λ _, batch_empty)
           (λ _ _, Some (lit "HTTP Error 404"))
           (λ _ _, Some (lit "Connection refused"))
           full_args [lit "X"]).
  - vm_compute. discriminate.
  - reflexivity.
  - constructor; [|constructor]. exists []. vm_compute. reflexivity.
Defined.
